(** * MixtureDistributions: a shallow embedding

    The module [utils_func/MixtureDistributions.py] assembles parameter
    arrays with numpy's global generator and hands them to the constructors
    of a distributions library; it also holds a few helpers on matrices.

    The embedding follows the module function by function.  Python floats
    are read as real numbers (exact arithmetic), the process-wide random
    state is threaded explicitly, and an exception is a value.  The
    libraries the module calls (numpy's generator, the distributions
    library, the dataset generator) are interfaces: a type class each,
    holding what their documentation promises. *)

From Stdlib Require Import String ZArith List Bool Reals Lra Lia.
From Stdlib Require Import DecimalString ClassicalEpsilon.
Import ListNotations.

Set Warnings "-register-all".

(** ** Exceptions and results *)

Inductive library := NumPy | TensorFlowProbability | ScikitLearn.

(** What a call can raise: an unbound local read by this module's code, an
    [Exception] this module raises itself, or whatever a library raises
    inside one of its own routines. *)
Inductive exn :=
| UnboundLocalError (name : string)
| Exception (msg : string)
| LibraryError (lib : library) (what : string).

Definition raised_by_library (e : exn) : bool :=
  match e with
  | LibraryError _ _ => true
  | _ => false
  end.

Inductive result (A : Type) :=
| Return (a : A)
| Raise (e : exn).

Arguments Return {A} a.
Arguments Raise {A} e.

Definition raises {A} (r : result A) : Prop :=
  match r with
  | Raise _ => True
  | Return _ => False
  end.

(** ** Vectors and matrices

    Rows of reals; a matrix product is told the column count of its right
    factor, so that a factor with no rows still has a shape. *)
Fixpoint dot (u v : list R) : R :=
  match u, v with
  | a :: u', b :: v' => (a * b + dot u' v')%R
  | _, _ => 0%R
  end.

Definition entry (A : list (list R)) (i j : nat) : R := nth j (nth i A []) 0%R.

Definition col (j : nat) (A : list (list R)) : list R :=
  map (fun r => nth j r 0%R) A.

Definition transpose (c : nat) (A : list (list R)) : list (list R) :=
  map (fun j => col j A) (seq 0 c).

Definition mmul (A : list (list R)) (c : nat) (B : list (list R)) : list (list R) :=
  map (fun a => map (fun j => dot a (col j B)) (seq 0 c)) A.

Definition mv (A : list (list R)) (x : list R) : list R :=
  map (fun a => dot a x) A.

Definition vscale (c : R) (u : list R) : list R := map (Rmult c) u.

Fixpoint vadd (u v : list R) : list R :=
  match u, v with
  | a :: u', b :: v' => (a + b)%R :: vadd u' v'
  | _, _ => []
  end.

Fixpoint vmul (u v : list R) : list R :=
  match u, v with
  | a :: u', b :: v' => (a * b)%R :: vmul u' v'
  | _, _ => []
  end.

Definition delta (i j : nat) : R := if Nat.eqb i j then 1%R else 0%R.

(** The n x c matrix whose entry (i, j) is [F i j]. *)
Definition tabulate (n c : nat) (F : nat -> nat -> R) : list (list R) :=
  map (fun i => map (fun j => F i j) (seq 0 c)) (seq 0 n).

Definition identity (n : nat) : list (list R) := tabulate n n delta.

Definition diag_rows (v : list R) : list (list R) :=
  tabulate (length v) (length v) (fun i j => (nth i v 0 * delta i j)%R).

Definition square (n : nat) (A : list (list R)) : Prop :=
  length A = n /\ Forall (fun r => length r = n) A.

Definition symmetric (A : list (list R)) : Prop :=
  transpose (length A) A = A.

Definition nonzero (x : list R) : Prop := Exists (fun a => a <> 0%R) x.

Definition positive_definite (n : nat) (A : list (list R)) : Prop :=
  forall x, length x = n -> nonzero x -> (0 < dot x (mv A x))%R.

(** A complex number [alpha + i beta] is an eigenvalue of the real matrix
    [A] when some non-zero complex vector [a + i b] is sent to its multiple:
    A a = alpha a - beta b and A b = beta a + alpha b. *)
Definition eigenvalue (n : nat) (A : list (list R)) (lambda : R * R) : Prop :=
  exists a b,
    length a = n /\ length b = n /\ (nonzero a \/ nonzero b) /\
    mv A a = vadd (vscale (fst lambda) a) (vscale (- snd lambda) b) /\
    mv A b = vadd (vscale (snd lambda) a) (vscale (fst lambda) b).

(** numpy's [z > 0]: by real part, then by imaginary part; on a real
    number it is the usual order. *)
Definition np_greater_0 (z : R * R) : Prop :=
  (0 < fst z)%R \/ (fst z = 0%R /\ 0 < snd z)%R.

(** ** Arrays

    A 2-D array keeps its column count beside its rows, so that shapes such
    as (0, 3) exist; an array of three axes or more is its shape and its
    entries. *)
Record matrix := mkMat {
  ncols : nat;
  rows : list (list R)
}.

Definition nrows (m : matrix) : nat := length (rows m).

Definition well_formed (m : matrix) : Prop :=
  Forall (fun r => length r = ncols m) (rows m).

Inductive ndarray :=
| Scalar (x : R)
| Vec (v : list R)
| Mat (m : matrix)
| Tensor (d1 d2 d3 : nat) (more : list nat) (data : list R).

Definition shape (a : ndarray) : list nat :=
  match a with
  | Scalar _ => []
  | Vec v => [length v]
  | Mat m => [nrows m; ncols m]
  | Tensor d1 d2 d3 more _ => d1 :: d2 :: d3 :: more
  end.

(** ** numpy on 2-D arrays *)

Definition shapes_not_aligned : exn := LibraryError NumPy "shapes not aligned".

(** [np.dot(a, b)] and [np.matmul(a, b)] of two 2-D arrays. *)
Definition np_dot (a b : matrix) : result matrix :=
  if Nat.eqb (ncols a) (nrows b)
  then Return (mkMat (ncols b) (mmul (rows a) (ncols b) (rows b)))
  else Raise shapes_not_aligned.

Definition np_matmul (a b : matrix) : result matrix := np_dot a b.

Definition np_transpose (a : matrix) : matrix :=
  mkMat (nrows a) (transpose (ncols a) (rows a)).

(** [np.diag] of a 2-D array is its diagonal, of a 1-D array the square
    matrix carrying it. *)
Definition np_diag2 (a : matrix) : list R :=
  map (fun i => entry (rows a) i i) (seq 0 (Nat.min (nrows a) (ncols a))).

Definition np_diag1 (v : list R) : matrix := mkMat (length v) (diag_rows v).

(** [np.sqrt], entry by entry.  (Of a negative entry numpy makes a nan,
    which a real number cannot be; the module takes roots of the diagonal
    of a positive-definite matrix only.) *)
Definition np_sqrt (a : matrix) : matrix :=
  mkMat (ncols a) (map (map sqrt) (rows a)).

(** [np.linalg.inv]: the inverse where there is one, an error of the
    library otherwise. *)
Definition is_inverse (a b : matrix) : Prop :=
  square (ncols a) (rows a) /\ square (ncols a) (rows b) /\
  ncols b = ncols a /\
  mmul (rows a) (ncols a) (rows b) = identity (ncols a) /\
  mmul (rows b) (ncols a) (rows a) = identity (ncols a).

Definition np_linalg_inv (a : matrix) : result matrix :=
  match excluded_middle_informative (exists b, is_inverse a b) with
  | left H => Return (proj1_sig (constructive_indefinite_description _ H))
  | right _ => Raise (LibraryError NumPy "Singular matrix")
  end.

(** [bool(np.all(np.linalg.eigvals(x) > 0))] for a square 2-D array. *)
Definition all_eigenvalues_positive (a : matrix) : bool :=
  if excluded_middle_informative
       (forall lambda, eigenvalue (ncols a) (rows a) lambda -> np_greater_0 lambda)
  then true else false.

(** ** transform_data, inverse_transform_data, is_pos_def *)

Definition expect_matrix (a : ndarray) : matrix :=
  match a with
  | Mat m => m
  | _ => mkMat 0 []
  end.

Definition transform_data (data : matrix) (rotation : ndarray) : result matrix :=
  if negb (Nat.eqb (length (shape rotation)) 2)
  then Raise (Exception "Rottion matrix must be a 2D matrix.")
  else if negb (Nat.eqb (nth 0 (shape rotation) 0) (nth 1 (shape rotation) 0))
  then Raise (Exception "Rotation matrix must be square.")
  else np_dot data (expect_matrix rotation).

Definition inverse_transform_data (data : matrix) (rotation : ndarray)
    : result matrix :=
  if negb (Nat.eqb (length (shape rotation)) 2)
  then Raise (Exception "Rottion matrix must be a 2D matrix.")
  else if negb (Nat.eqb (nth 0 (shape rotation) 0) (nth 1 (shape rotation) 0))
  then Raise (Exception "Rotation matrix must be square.")
  else np_dot data (np_transpose (expect_matrix rotation)).

Definition is_pos_def (x : ndarray) : result bool :=
  if negb (Nat.eqb (length (shape x)) 2)
  then Raise (Exception "Input to is_pos_def must be a 2-dimensional array.")
  else if negb (Nat.eqb (nth 0 (shape x) 0) (nth 1 (shape x) 0))
  then Raise (Exception "Input to is_pos_def must be a square matrix.")
  else Return (all_eigenvalues_positive (expect_matrix x)).

(** A rotation matrix is orthonormal: its transpose is its inverse. *)
Definition orthonormal (r : matrix) : Prop :=
  square (ncols r) (rows r) /\
  mmul (rows r) (ncols r) (transpose (ncols r) (rows r)) = identity (ncols r) /\
  mmul (transpose (ncols r) (rows r)) (ncols r) (rows r) = identity (ncols r).

(** ** Matrices used as examples *)

Definition sign_matrix : matrix :=
  mkMat 2 [[1; 0]; [0; -1]]%R.

Definition quarter_turn : matrix := mkMat 2 [[0; -1]; [1; 0]]%R.

Definition two_samples : matrix := mkMat 2 [[1; 2]; [3; 4]]%R.

(** The scale factors of the normalisation: one over the root of each
    diagonal entry. *)
Definition inverse_roots (V : matrix) : list R :=
  map (fun x => (/ sqrt x)%R) (np_diag2 V).

(** ** numpy's legacy generator

    [np.random.seed(s)] and [RandomState(s)] initialise a generator state
    from an integer; every 32-bit output advances the state. *)
Class BitGenerator := {
  rng_state : Type;
  init_genrand : Z -> rng_state;
  genrand_int32 : rng_state -> Z * rng_state;
  genrand_int32_range :
    forall s, (0 <= fst (genrand_int32 s) < 2 ^ 32)%Z
}.

(** ** The dataset library

    [make_spd_matrix] turns the draws of a generator into a symmetric
    positive-definite matrix of the size asked for. *)
Class DatasetLibrary (G : BitGenerator) := {
  spd : nat -> rng_state -> list (list R);
  spd_square : forall n s, square n (spd n s);
  spd_symmetric : forall n s, symmetric (spd n s);
  spd_positive : forall n s, positive_definite n (spd n s)
}.

(** ** numpy's statistics and eigen-solver, as [rot_matrix] calls them *)
Class LinearAlgebraLibrary := {
  np_cov : matrix -> result matrix;              (* rowvar = False *)
  np_linalg_eig : matrix -> result (list R * matrix)
}.

(** ** The distributions library *)

Inductive Distribution :=
| Normal (loc scale : ndarray)
| MultivariateNormalDiag (loc scale_diag : ndarray)
| Categorical (probs : ndarray)
| Mixture (cat : Distribution) (components : list Distribution)
          (validate_args : bool)
| MixtureSameFamily (mixture_distribution components_distribution : Distribution)
                    (validate_args : bool)
| Independent (distribution : Distribution) (reinterpreted_batch_ndims : nat).

(** What the module relies on: whether a constructor takes its arguments
    (it raises otherwise), the number of batch axes of a distribution, and
    the sampler of every family that is not a wrapper, run under the
    framework's global seed. *)
Class DistributionLibrary := {
  accepts : Distribution -> bool;
  batch_ndims : Distribution -> nat;
  sample_n : Distribution -> option Z -> ndarray
}.

Definition rot_matrix {L : LinearAlgebraLibrary} (data : matrix) : result matrix :=
  match np_cov data with
  | Raise e => Raise e
  | Return cov_matrix =>
      match np_linalg_eig cov_matrix with
      | Raise e => Raise e
      | Return (w, V) => Return V
      end
  end.

Section Embedding.

Context {G : BitGenerator} {T : DistributionLibrary} {DS : DatasetLibrary G}.

(** ** Process-wide state *)

Record World := mkWorld {
  PYTHONHASHSEED : option string;   (* os.environ['PYTHONHASHSEED'] *)
  tf_global_seed : option Z;        (* tf.random.set_seed *)
  np_random : rng_state;            (* numpy's global generator *)
  py_random : option Z              (* random.seed: the seed last given *)
}.

Definition M (A : Type) : Type := World -> result A * World.

Definition ret {A} (a : A) : M A := fun w => (Return a, w).

Definition raise {A} (e : exn) : M A := fun w => (Raise e, w).

Definition bind {A B} (c : M A) (k : A -> M B) : M B :=
  fun w =>
    match c w with
    | (Return a, w') => k a w'
    | (Raise e, w') => (Raise e, w')
    end.

Definition lift {A} (r : result A) : M A := fun w => (r, w).

Notation "x <- c ;; k" := (bind c (fun x => k))
  (at level 61, c at next level, right associativity).
Notation "c ;;; k" := (bind c (fun _ => k))
  (at level 61, right associativity).

(** [for x in xs: body], the body updating the locals [s]. *)
Fixpoint for_each {A St} (xs : list A) (body : A -> St -> M St) (s : St) : M St :=
  match xs with
  | [] => ret s
  | x :: rest => s' <- body x s ;; for_each rest body s'
  end.

Definition range (n : Z) : list nat := seq 0 (Z.to_nat n).

(** Reading a local variable: a name that was only annotated has no value. *)
Definition load {A} (name : string) (v : option A) : M A :=
  match v with
  | Some a => ret a
  | None => raise (UnboundLocalError name)
  end.

(** ** reset_random_seeds *)

Definition str (z : Z) : string := NilZero.string_of_int (Z.to_int z).

Definition np_random_seed (seed : Z) : M unit :=
  fun w =>
    if ((0 <=? seed) && (seed <? 2 ^ 32))%Z
    then (Return tt,
          mkWorld (PYTHONHASHSEED w) (tf_global_seed w)
                  (init_genrand seed) (py_random w))
    else (Raise (LibraryError NumPy "Seed must be between 0 and 2**32 - 1"), w).

Definition reset_random_seeds (seed : Z) : M unit :=
  (fun w => (Return tt,
             mkWorld (Some (str seed)) (tf_global_seed w)
                     (np_random w) (py_random w))) ;;;
  (fun w => (Return tt,
             mkWorld (PYTHONHASHSEED w) (Some seed)
                     (np_random w) (py_random w))) ;;;
  np_random_seed seed ;;;
  (fun w => (Return tt,
             mkWorld (PYTHONHASHSEED w) (tf_global_seed w)
                     (np_random w) (Some seed))).

(** ** np.random.sample

    One float in [0, 1): 53 bits out of two 32-bit outputs. *)
Definition random_sample (s : rng_state) : R * rng_state :=
  let (y1, s1) := genrand_int32 s in
  let (y2, s2) := genrand_int32 s1 in
  ((IZR (Z.shiftr y1 5 * 67108864 + Z.shiftr y2 6) / 9007199254740992)%R, s2).

Fixpoint random_vector (k : nat) (s : rng_state) : list R * rng_state :=
  match k with
  | O => ([], s)
  | S k' =>
      let (x, s1) := random_sample s in
      let (xs, s2) := random_vector k' s1 in
      (x :: xs, s2)
  end.

(** Rows are filled one after the other (C order). *)
Fixpoint random_rows (n d : nat) (s : rng_state) : list (list R) * rng_state :=
  match n with
  | O => ([], s)
  | S n' =>
      let (row, s1) := random_vector d s in
      let (rows, s2) := random_rows n' d s1 in
      (row :: rows, s2)
  end.

Definition negative_dimensions : exn :=
  LibraryError NumPy "negative dimensions are not allowed".

(** [np.random.sample(n)]: a 1-D array. *)
Definition np_random_sample1 (n : Z) : M (list R) :=
  fun w =>
    if (n <? 0)%Z then (Raise negative_dimensions, w)
    else
      let (v, s) := random_vector (Z.to_nat n) (np_random w) in
      (Return v,
       mkWorld (PYTHONHASHSEED w) (tf_global_seed w) s (py_random w)).

(** [np.random.sample([n, d])]: the rows of an n x d array. *)
Definition np_random_sample2 (n d : Z) : M (list (list R)) :=
  fun w =>
    if ((n <? 0) || (d <? 0))%Z then (Raise negative_dimensions, w)
    else
      let (rows, s) := random_rows (Z.to_nat n) (Z.to_nat d) (np_random w) in
      (Return rows,
       mkWorld (PYTHONHASHSEED w) (tf_global_seed w) s (py_random w)).

(** [a * 10] on a 2-D array. *)
Definition times10 (rows : list (list R)) : list (list R) :=
  map (map (fun x => (x * 10)%R)) rows.

(** ** Constructors of the distributions library

    A constructor either takes its arguments or raises inside the library. *)
Definition construct (d : Distribution) : M Distribution :=
  fun w =>
    if accepts d then (Return d, w)
    else (Raise (LibraryError TensorFlowProbability "invalid arguments"), w).

Definition tfd_Normal (loc scale : ndarray) : M Distribution :=
  construct (Normal loc scale).

Definition tfd_MultivariateNormalDiag (loc scale_diag : ndarray) : M Distribution :=
  construct (MultivariateNormalDiag loc scale_diag).

Definition tfd_Categorical (probs : ndarray) : M Distribution :=
  construct (Categorical probs).

Definition tfd_Mixture (cat : Distribution) (components : list Distribution)
    (validate_args : bool) : M Distribution :=
  construct (Mixture cat components validate_args).

Definition tfd_MixtureSameFamily (mixture_distribution components_distribution : Distribution)
    (validate_args : bool) : M Distribution :=
  construct (MixtureSameFamily mixture_distribution components_distribution
                               validate_args).

(** [Independent] only checks that the reinterpreted axes exist. *)
Definition tfd_Independent (distribution : Distribution)
    (reinterpreted_batch_ndims : nat) : M Distribution :=
  if (reinterpreted_batch_ndims <=? batch_ndims distribution)%nat
  then ret (Independent distribution reinterpreted_batch_ndims)
  else raise (LibraryError TensorFlowProbability
                "reinterpreted_batch_ndims exceeds the batch rank").

(** Sampling: a wrapper hands the call to the distribution it wraps. *)
Fixpoint sample (d : Distribution) (tf_seed : option Z) : ndarray :=
  match d with
  | Independent inner _ => sample inner tf_seed
  | _ => sample_n d tf_seed
  end.

(** ** The parameter arrays

    Every constructor opens with the same four statements (lines 55-58,
    94-97, 130-133, 170-173, 207-210, 246-249, 282-285, 322-325): reset the
    seeds, draw [loc] and [scale] of shape (components, dimensions), then
    the mixing weights, of shape (dimensions, components) or
    (components,). *)
Inductive weighting := PerDimension | Shared.

Record parameters := mkParameters {
  loc : list (list R);
  scale : list (list R);
  probs : ndarray
}.

Definition draw_parameters (wt : weighting) (n_components n_dimensions seed : Z)
    : M parameters :=
  reset_random_seeds seed ;;;
  loc0 <- np_random_sample2 n_components n_dimensions ;;
  scale <- np_random_sample2 n_components n_dimensions ;;
  probs <- match wt with
           | PerDimension =>
               rows <- np_random_sample2 n_dimensions n_components ;;
               ret (Mat (mkMat (Z.to_nat n_components) rows))
           | Shared =>
               v <- np_random_sample1 n_components ;;
               ret (Vec v)
           end ;;
  ret (mkParameters (times10 loc0) scale probs).

(** [components.append(Normal(loc = loc[i], scale = scale[i]))]: the list
    is read before the component is built. *)
Definition append_Normal (p : parameters) (i : nat)
    (components : option (list Distribution)) : M (option (list Distribution)) :=
  cs <- load "components" components ;;
  c <- tfd_Normal (Vec (nth i (loc p) [])) (Vec (nth i (scale p) [])) ;;
  ret (Some (cs ++ [c])).

Definition append_MultivariateNormalDiag (p : parameters) (i : nat)
    (components : option (list Distribution)) : M (option (list Distribution)) :=
  cs <- load "components" components ;;
  c <- tfd_MultivariateNormalDiag (Vec (nth i (loc p) []))
                                  (Vec (nth i (scale p) [])) ;;
  ret (Some (cs ++ [c])).

(** ** The eight constructors *)

Definition MixNormal1 (n_components n_dimensions seed : Z) : M Distribution :=
  p <- draw_parameters PerDimension n_components n_dimensions seed ;;
  components <- for_each (range n_components) (append_Normal p) (Some []) ;;
  cat <- tfd_Categorical (probs p) ;;
  cs <- load "components" components ;;
  tfd_Mixture cat cs true.

Definition MixNormal2 (n_components n_dimensions seed : Z) : M Distribution :=
  p <- draw_parameters Shared n_components n_dimensions seed ;;
  mixture_distribution <- tfd_Categorical (probs p) ;;
  components_distribution <-
    tfd_Normal (Mat (mkMat (Z.to_nat n_dimensions) (loc p)))
               (Mat (mkMat (Z.to_nat n_dimensions) (scale p))) ;;
  tfd_MixtureSameFamily mixture_distribution components_distribution true.

Definition MixNormal1_indep (n_components n_dimensions seed : Z) : M Distribution :=
  p <- draw_parameters PerDimension n_components n_dimensions seed ;;
  components <- for_each (range n_components) (append_Normal p) (Some []) ;;
  cat <- tfd_Categorical (probs p) ;;
  cs <- load "components" components ;;
  distribution <- tfd_Mixture cat cs true ;;
  tfd_Independent distribution 0.

Definition MixNormal2_indep (n_components n_dimensions seed : Z) : M Distribution :=
  p <- draw_parameters Shared n_components n_dimensions seed ;;
  mixture_distribution <- tfd_Categorical (probs p) ;;
  components_distribution <-
    tfd_Normal (Mat (mkMat (Z.to_nat n_dimensions) (loc p)))
               (Mat (mkMat (Z.to_nat n_dimensions) (scale p))) ;;
  distribution <-
    tfd_MixtureSameFamily mixture_distribution components_distribution true ;;
  tfd_Independent distribution 0.

Definition MixMultiNormal1 (n_components n_dimensions seed : Z) : M Distribution :=
  p <- draw_parameters Shared n_components n_dimensions seed ;;
  components <-
    for_each (range n_components) (append_MultivariateNormalDiag p) (Some []) ;;
  cat <- tfd_Categorical (probs p) ;;
  cs <- load "components" components ;;
  tfd_Mixture cat cs true.

Definition MixMultiNormal2 (n_components n_dimensions seed : Z) : M Distribution :=
  p <- draw_parameters Shared n_components n_dimensions seed ;;
  mixture_distribution <- tfd_Categorical (probs p) ;;
  components_distribution <-
    tfd_MultivariateNormalDiag (Mat (mkMat (Z.to_nat n_dimensions) (loc p)))
                               (Mat (mkMat (Z.to_nat n_dimensions) (scale p))) ;;
  tfd_MixtureSameFamily mixture_distribution components_distribution true.

(** Line 286 annotates [components] and gives it no value: the name is a
    local of the function with nothing bound to it. *)
Definition MixMultiNormal1_indep (n_components n_dimensions seed : Z)
    : M Distribution :=
  p <- draw_parameters Shared n_components n_dimensions seed ;;
  components <-
    for_each (range n_components) (append_MultivariateNormalDiag p) None ;;
  cat <- tfd_Categorical (probs p) ;;
  cs <- load "components" components ;;
  distribution <- tfd_Mixture cat cs true ;;
  tfd_Independent distribution 0.

Definition MixMultiNormal2_indep (n_components n_dimensions seed : Z)
    : M Distribution :=
  p <- draw_parameters Shared n_components n_dimensions seed ;;
  mixture_distribution <- tfd_Categorical (probs p) ;;
  components_distribution <-
    tfd_MultivariateNormalDiag (Mat (mkMat (Z.to_nat n_dimensions) (loc p)))
                               (Mat (mkMat (Z.to_nat n_dimensions) (scale p))) ;;
  distribution <-
    tfd_MixtureSameFamily mixture_distribution components_distribution true ;;
  tfd_Independent distribution 0.

Definition MixtureGaussian (ncomp ndims seed : Z) : M Distribution :=
  MixMultiNormal1 ncomp ndims seed.

(** The constructors by name. *)
Inductive variant :=
| V_MixNormal1 | V_MixNormal2 | V_MixNormal1_indep | V_MixNormal2_indep
| V_MixMultiNormal1 | V_MixMultiNormal2
| V_MixMultiNormal1_indep | V_MixMultiNormal2_indep.

Definition constructor (v : variant) : Z -> Z -> Z -> M Distribution :=
  match v with
  | V_MixNormal1 => MixNormal1
  | V_MixNormal2 => MixNormal2
  | V_MixNormal1_indep => MixNormal1_indep
  | V_MixNormal2_indep => MixNormal2_indep
  | V_MixMultiNormal1 => MixMultiNormal1
  | V_MixMultiNormal2 => MixMultiNormal2
  | V_MixMultiNormal1_indep => MixMultiNormal1_indep
  | V_MixMultiNormal2_indep => MixMultiNormal2_indep
  end.

Definition weights_of (v : variant) : weighting :=
  match v with
  | V_MixNormal1 | V_MixNormal1_indep => PerDimension
  | _ => Shared
  end.

(** ** RandCorr and RandCov

    [make_spd_matrix(n_dim, random_state = seed)] with an integer seed
    draws from a generator of its own, seeded with it. *)
Definition make_spd_matrix (n_dim random_state : Z) : M matrix :=
  fun w =>
    if negb ((0 <=? random_state) && (random_state <? 2 ^ 32))%Z
    then (Raise (LibraryError NumPy "Seed must be between 0 and 2**32 - 1"), w)
    else if (n_dim <? 0)%Z then (Raise negative_dimensions, w)
    else (Return (mkMat (Z.to_nat n_dim)
                        (spd (Z.to_nat n_dim) (init_genrand random_state))), w).

(** Lines 429-434: the matrix, then its normalisation. *)
Definition normalised_spd_matrix (matrixSize seed : Z) : M matrix :=
  V <- make_spd_matrix matrixSize seed ;;
  let D := np_sqrt (np_diag1 (np_diag2 V)) in
  Dinv <- lift (np_linalg_inv D) ;;
  DinvV <- lift (np_matmul Dinv V) ;;
  Vnorm <- lift (np_matmul DinvV Dinv) ;;
  ret Vnorm.

Definition RandCorr (matrixSize seed : Z) : M matrix :=
  np_random_seed 0 ;;;
  normalised_spd_matrix matrixSize seed.

Definition RandCov (std : list R) (seed : Z) : M matrix :=
  let matrixSize := Z.of_nat (length std) in
  corr <- RandCorr matrixSize seed ;;
  let D := np_diag1 std in
  Dcorr <- lift (np_matmul D corr) ;;
  V <- lift (np_matmul Dcorr D) ;;
  ret V.

(** ** Properties of computations *)

(** A computation is reproducible when neither its result nor, when it
    returns, the state it leaves depends on the state it starts from. *)
Definition reproducible {A} (c : M A) : Prop :=
  forall w1 w2,
    fst (c w1) = fst (c w2) /\
    (forall a, fst (c w1) = Return a -> snd (c w1) = snd (c w2)).

(** The range of [np.random.sample]. *)
Definition in_unit_interval (x : R) : Prop := (0 <= x < 1)%R.

(** [ensures c Q]: when [c] returns, its value satisfies [Q]; when it
    raises, the exception comes out of a library. *)
Definition ensures {A} (c : M A) (Q : A -> Prop) : Prop :=
  forall w,
    match fst (c w) with
    | Return a => Q a
    | Raise e => raised_by_library e = true
    end.

(** A local that has a value. *)
Definition bound {A} (v : option A) : Prop := v <> None.

(** A wrapped constructor ends as the plain one does: with the same
    exception, or with the plain distribution inside [Independent], whose
    samples are the plain distribution's. *)
Definition wraps (plain wrapped : result Distribution) : Prop :=
  match plain, wrapped with
  | Return a, Return b =>
      b = Independent a 0 /\ forall tf_seed, sample b tf_seed = sample a tf_seed
  | Raise e, Raise e' => e = e'
  | _, _ => False
  end.

End Embedding.

(** * Lists of reals: sums of products *)

Lemma map_nth_seq {A} (l : list A) (d : A) :
  map (fun i => nth i l d) (seq 0 (length l)) = l.
Proof.
  induction l as [|a l IH]; simpl; [reflexivity|].
  f_equal. rewrite <- seq_shift, map_map. exact IH.
Qed.

Lemma map_as_indexed {A B} (f : A -> B) (l : list A) (d : A) :
  map f l = map (fun i => f (nth i l d)) (seq 0 (length l)).
Proof.
  rewrite <- (map_nth_seq l d) at 1. now rewrite map_map.
Qed.

Lemma dot_nil_r u : dot u [] = 0%R.
Proof. destruct u; reflexivity. Qed.

Lemma dot_comm u v : dot u v = dot v u.
Proof.
  revert v; induction u as [|a u IH]; intros [|b v]; simpl; try reflexivity.
  rewrite IH. ring.
Qed.

Lemma dot_vscale_l c u y : dot (vscale c u) y = (c * dot u y)%R.
Proof.
  revert y; induction u as [|a u IH]; intros [|b y]; simpl; try ring.
  rewrite IH. ring.
Qed.

Lemma dot_vadd_l u v y :
  length u = length v -> dot (vadd u v) y = (dot u y + dot v y)%R.
Proof.
  revert v y; induction u as [|a u IH]; intros [|b v] y E; simpl in *;
    try discriminate; try ring.
  destruct y as [|c y]; simpl; [ring|].
  rewrite IH by congruence. ring.
Qed.

Lemma dot_vmul_l s x y : dot (vmul s x) y = dot x (vmul s y).
Proof.
  revert x y; induction s as [|a s IH]; intros [|b x] [|c y]; simpl;
    try reflexivity.
  rewrite IH. ring.
Qed.

Lemma dot_zeros_l {A} (l : list A) y : dot (map (fun _ => 0%R) l) y = 0%R.
Proof.
  revert y; induction l as [|a l IH]; intros [|b y]; simpl; try reflexivity.
  rewrite IH. ring.
Qed.

Lemma length_vscale c u : length (vscale c u) = length u.
Proof. apply length_map. Qed.

Lemma length_vadd u v : length u = length v -> length (vadd u v) = length u.
Proof.
  revert v; induction u as [|a u IH]; intros [|b v] E; simpl in *;
    try discriminate; auto.
Qed.

Lemma length_vmul u v : length u = length v -> length (vmul u v) = length u.
Proof.
  revert v; induction u as [|a u IH]; intros [|b v] E; simpl in *;
    try discriminate; auto.
Qed.

Lemma length_mv A x : length (mv A x) = length A.
Proof. apply length_map. Qed.

Lemma map_plus_seq (f g : nat -> R) s c :
  map (fun j => (f j + g j)%R) (seq s c) = vadd (map f (seq s c)) (map g (seq s c)).
Proof.
  revert s; induction c as [|c IH]; intros s; simpl; [reflexivity|].
  now rewrite IH.
Qed.

(** A sum against a column of [delta]s picks one entry. *)
Lemma dot_delta a (f : nat -> R) j s :
  dot a (map (fun i => (f i * delta i j)%R) (seq s (length a))) =
  if (s <=? j)%nat && (j <? s + length a)%nat
  then (nth (j - s) a 0 * f j)%R else 0%R.
Proof.
  revert s; induction a as [|x a IH]; intros s; simpl.
  - replace (j <? s + 0)%nat with (j <? s)%nat by (f_equal; lia).
    destruct (Nat.leb_spec s j), (Nat.ltb_spec j s); simpl; try reflexivity; lia.
  - rewrite IH. unfold delta at 1.
    destruct (Nat.eqb_spec s j) as [->|N].
    + replace (j - j)%nat with 0%nat by lia.
      replace (S j <=? j)%nat with false by (symmetry; apply Nat.leb_gt; lia).
      rewrite Nat.leb_refl.
      replace (j <? j + S (length a))%nat with true
        by (symmetry; apply Nat.ltb_lt; lia).
      simpl. ring.
    + destruct (Nat.leb_spec (S s) j), (Nat.leb_spec s j); try lia.
      * replace (j <? s + S (length a))%nat with (j <? S s + length a)%nat
          by (f_equal; lia).
        destruct (j <? S s + length a)%nat; simpl; [|ring].
        replace (j - s)%nat with (S (j - S s)) by lia. simpl. ring.
      * simpl. ring.
Qed.

Lemma dot_basis a j :
  (j < length a)%nat ->
  dot a (map (fun i => delta i j) (seq 0 (length a))) = nth j a 0%R.
Proof.
  intros Hj.
  rewrite (map_ext _ (fun i => (1 * delta i j)%R)) by (intros; ring).
  rewrite (dot_delta a (fun _ => 1%R) j 0). simpl.
  replace (j <? length a)%nat with true by (symmetry; apply Nat.ltb_lt; lia).
  rewrite Nat.sub_0_r. ring.
Qed.

(** * Matrices entry by entry *)

Lemma length_tabulate n c F : length (tabulate n c F) = n.
Proof. unfold tabulate. now rewrite length_map, length_seq. Qed.

Lemma rows_tabulate n c F : Forall (fun r => length r = c) (tabulate n c F).
Proof.
  unfold tabulate. apply Forall_forall. intros r Hr.
  apply in_map_iff in Hr as (i & <- & _). now rewrite length_map, length_seq.
Qed.

Lemma nth_tabulate n c F i :
  (i < n)%nat -> nth i (tabulate n c F) [] = map (fun j => F i j) (seq 0 c).
Proof.
  intros Hi. unfold tabulate.
  rewrite (nth_indep _ [] (map (fun j => F 0%nat j) (seq 0 c)))
    by now rewrite length_map, length_seq.
  rewrite (map_nth (fun i => map (fun j => F i j) (seq 0 c))).
  now rewrite seq_nth.
Qed.

Lemma nth_map_seq (f : nat -> R) c j :
  (j < c)%nat -> nth j (map f (seq 0 c)) 0%R = f j.
Proof.
  intros Hj.
  rewrite (nth_indep _ 0%R (f 0%nat)) by now rewrite length_map, length_seq.
  rewrite (map_nth f). now rewrite seq_nth.
Qed.

Lemma entry_tabulate n c F i j :
  (i < n)%nat -> (j < c)%nat -> entry (tabulate n c F) i j = F i j.
Proof.
  intros Hi Hj. unfold entry. rewrite nth_tabulate by assumption.
  now apply nth_map_seq.
Qed.

Lemma tabulate_ext n c F F' :
  (forall i j, (i < n)%nat -> (j < c)%nat -> F i j = F' i j) ->
  tabulate n c F = tabulate n c F'.
Proof.
  intros H. unfold tabulate. apply map_ext_in. intros i Hi.
  apply map_ext_in. intros j Hj.
  apply in_seq in Hi, Hj. apply H; lia.
Qed.

Lemma tabulate_entry n c A :
  length A = n -> Forall (fun r => length r = c) A ->
  tabulate n c (entry A) = A.
Proof.
  intros <- Hrows. unfold tabulate, entry.
  rewrite <- (map_nth_seq A []) at 2.
  apply map_ext_in. intros i Hi. apply in_seq in Hi.
  assert (Hlen : length (nth i A []) = c).
  { rewrite Forall_forall in Hrows. apply Hrows, nth_In. lia. }
  rewrite <- Hlen. apply map_nth_seq.
Qed.

Lemma col_as_entries j A :
  col j A = map (fun i => entry A i j) (seq 0 (length A)).
Proof. unfold col, entry. apply (map_as_indexed (fun r => nth j r 0%R)). Qed.

Lemma length_col j A : length (col j A) = length A.
Proof. apply length_map. Qed.

Lemma transpose_tabulate c A :
  transpose c A = tabulate c (length A) (fun j i => entry A i j).
Proof.
  unfold transpose, tabulate. apply map_ext. intros j. apply col_as_entries.
Qed.

Lemma mmul_tabulate A c B :
  mmul A c B = tabulate (length A) c (fun i j => dot (nth i A []) (col j B)).
Proof.
  unfold mmul, tabulate.
  apply (map_as_indexed (fun a => map (fun j => dot a (col j B)) (seq 0 c))).
Qed.

Lemma length_mmul A c B : length (mmul A c B) = length A.
Proof. apply length_map. Qed.

Lemma rows_mmul A c B : Forall (fun r => length r = c) (mmul A c B).
Proof. rewrite mmul_tabulate. apply rows_tabulate. Qed.

Lemma square_mmul n A B : length A = n -> square n (mmul A n B).
Proof. intros H. split; [now rewrite length_mmul | apply rows_mmul]. Qed.

Lemma square_tabulate n F : square n (tabulate n n F).
Proof. split; [apply length_tabulate | apply rows_tabulate]. Qed.

Lemma square_row n A i : square n A -> (i < n)%nat -> length (nth i A []) = n.
Proof.
  intros [Hl Hr] Hi. rewrite Forall_forall in Hr. apply Hr, nth_In. lia.
Qed.

(** A row times a matrix, then a vector: the sums may be exchanged. *)
Lemma dot_row_matrix a c B y :
  Forall (fun r => length r = c) B ->
  dot (map (fun j => dot a (col j B)) (seq 0 c)) y = dot a (mv B y).
Proof.
  intros HB. revert a. induction HB as [|b B Hb HB IH]; intros a.
  - simpl. rewrite (map_ext _ (fun _ => 0%R)) by (intros; apply dot_nil_r).
    now rewrite dot_zeros_l, dot_nil_r.
  - destruct a as [|a0 a].
    + simpl. apply dot_zeros_l.
    + simpl. rewrite map_plus_seq, dot_vadd_l
        by now rewrite !length_map.
      rewrite IH. f_equal.
      change (map (fun j => (a0 * nth j b 0)%R) (seq 0 c))
        with (map (fun j => (fun x => a0 * x)%R (nth j b 0%R)) (seq 0 c)).
      rewrite <- (map_map (fun j => nth j b 0%R) (fun x => (a0 * x)%R)).
      rewrite <- Hb, map_nth_seq. apply dot_vscale_l.
Qed.

Lemma mv_mmul A c B x :
  Forall (fun r => length r = c) B ->
  mv (mmul A c B) x = mv A (mv B x).
Proof.
  intros HB. unfold mv at 1 2, mmul. rewrite map_map.
  apply map_ext. intros a. now apply dot_row_matrix.
Qed.

Lemma col_mmul B c C j :
  (j < c)%nat -> col j (mmul B c C) = mv B (col j C).
Proof.
  intros Hj. unfold col at 1, mmul, mv. rewrite map_map.
  apply map_ext. intros b. now rewrite nth_map_seq.
Qed.

Lemma mmul_assoc A cb B cc C :
  Forall (fun r => length r = cb) B ->
  mmul (mmul A cb B) cc C = mmul A cc (mmul B cc C).
Proof.
  intros HB. unfold mmul at 1 2 3. rewrite map_map.
  apply map_ext. intros a. apply map_ext_in. intros j Hj.
  apply in_seq in Hj.
  rewrite col_mmul by lia. now apply dot_row_matrix.
Qed.

Lemma col_identity n j :
  col j (identity n) = map (fun i => delta i j) (seq 0 n).
Proof.
  rewrite col_as_entries. unfold identity. rewrite length_tabulate.
  apply map_ext_in. intros i Hi. apply in_seq in Hi.
  destruct (Nat.lt_ge_cases j n) as [Hj|Hj].
  - rewrite entry_tabulate by lia. reflexivity.
  - unfold entry. rewrite nth_tabulate by lia.
    rewrite nth_overflow by now rewrite length_map, length_seq.
    unfold delta. destruct (Nat.eqb_spec i j); [lia | reflexivity].
Qed.

Lemma mmul_identity_r n A :
  Forall (fun r => length r = n) A -> mmul A n (identity n) = A.
Proof.
  intros HA. rewrite mmul_tabulate.
  transitivity (tabulate (length A) n (entry A)); [|now apply tabulate_entry].
  apply tabulate_ext. intros i j Hi Hj.
  assert (Hlen : length (nth i A []) = n).
  { rewrite Forall_forall in HA. apply HA, nth_In. lia. }
  rewrite col_identity, <- Hlen, dot_basis by lia. reflexivity.
Qed.

Lemma mmul_identity_l n c B :
  length B = n -> Forall (fun r => length r = c) B ->
  mmul (identity n) c B = B.
Proof.
  intros HB Hrows. rewrite mmul_tabulate. unfold identity at 1.
  rewrite length_tabulate.
  transitivity (tabulate n c (entry B)); [|now apply tabulate_entry].
  apply tabulate_ext. intros i j Hi Hj.
  unfold identity. rewrite nth_tabulate by lia.
  rewrite dot_comm.
  rewrite (map_ext _ (fun k => delta k i))
    by (intros k; unfold delta; rewrite Nat.eqb_sym; reflexivity).
  rewrite <- HB, <- (length_col j B), dot_basis
    by (rewrite length_col; lia).
  unfold col, entry. rewrite (nth_indep _ 0%R (nth j [] 0%R))
    by (rewrite length_map; lia).
  now rewrite (map_nth (fun r => nth j r 0%R)).
Qed.

Lemma mv_identity n x : length x = n -> mv (identity n) x = x.
Proof.
  intros Hx. unfold mv, identity, tabulate. rewrite map_map.
  transitivity (map (fun i => nth i x 0%R) (seq 0 (length x)));
    [|apply map_nth_seq].
  rewrite Hx. apply map_ext_in. intros i Hi. apply in_seq in Hi.
  rewrite dot_comm.
  rewrite (map_ext _ (fun k => delta k i))
    by (intros k; unfold delta; rewrite Nat.eqb_sym; reflexivity).
  rewrite <- Hx. apply dot_basis. lia.
Qed.

(** * Inverses *)

Lemma is_inverse_unique a b b' : is_inverse a b -> is_inverse a b' -> b = b'.
Proof.
  intros (Ha & Hb & Hc & _ & Hba) (_ & Hb' & Hc' & Hab' & _).
  assert (E : rows b = rows b').
  { rewrite <- (mmul_identity_r (ncols a) (rows b)) by apply Hb.
    rewrite <- Hab'.
    rewrite <- (mmul_assoc (rows b) (ncols a) (rows a)) by apply Ha.
    rewrite Hba. apply mmul_identity_l; apply Hb'. }
  destruct b, b'; simpl in *; congruence.
Qed.

Lemma np_linalg_inv_spec a b : is_inverse a b -> np_linalg_inv a = Return b.
Proof.
  intros H. unfold np_linalg_inv.
  destruct (excluded_middle_informative _) as [E|N].
  - f_equal. apply (is_inverse_unique a); [|exact H].
    apply (proj2_sig (constructive_indefinite_description _ E)).
  - exfalso. apply N. now exists b.
Qed.

(** * Diagonal matrices *)

Lemma map_map_tabulate (f : R -> R) n c F :
  map (map f) (tabulate n c F) = tabulate n c (fun i j => f (F i j)).
Proof.
  unfold tabulate. rewrite map_map. apply map_ext. intros i.
  now rewrite map_map.
Qed.

Lemma nth_map0 (f : R -> R) l i :
  (i < length l)%nat -> nth i (map f l) 0%R = f (nth i l 0%R).
Proof.
  intros Hi. rewrite (nth_indep _ 0%R (f 0%R)) by now rewrite length_map.
  apply map_nth.
Qed.

Lemma delta_sym i j : delta i j = delta j i.
Proof. unfold delta. now rewrite Nat.eqb_sym. Qed.

Lemma delta_diag i : delta i i = 1%R.
Proof. unfold delta. now rewrite Nat.eqb_refl. Qed.

Lemma delta_cases i j : delta i j = 0%R \/ (i = j /\ delta i j = 1%R).
Proof. unfold delta. destruct (Nat.eqb_spec i j); auto. Qed.

Lemma sqrt_diag_rows d :
  map (map sqrt) (diag_rows d) = diag_rows (map sqrt d).
Proof.
  unfold diag_rows. rewrite map_map_tabulate, length_map.
  apply tabulate_ext. intros i j Hi Hj.
  rewrite nth_map0 by assumption.
  destruct (delta_cases i j) as [-> | [_ ->]].
  - rewrite !Rmult_0_r. apply sqrt_0.
  - now rewrite !Rmult_1_r.
Qed.

Lemma col_diag_rows v j :
  (j < length v)%nat ->
  col j (diag_rows v) = map (fun i => (nth i v 0 * delta i j)%R) (seq 0 (length v)).
Proof.
  intros Hj. rewrite col_as_entries. unfold diag_rows.
  rewrite length_tabulate. apply map_ext_in. intros i Hi. apply in_seq in Hi.
  now rewrite entry_tabulate by lia.
Qed.

Lemma mmul_diag_r A v :
  Forall (fun r => length r = length v) A ->
  mmul A (length v) (diag_rows v) =
  tabulate (length A) (length v) (fun i j => (entry A i j * nth j v 0)%R).
Proof.
  intros HA. rewrite mmul_tabulate. apply tabulate_ext. intros i j Hi Hj.
  assert (Hlen : length (nth i A []) = length v).
  { rewrite Forall_forall in HA. apply HA, nth_In. lia. }
  rewrite col_diag_rows, <- Hlen by assumption.
  rewrite (dot_delta (nth i A []) (fun k => nth k v 0%R) j 0). simpl.
  replace (j <? length (nth i A []))%nat with true
    by (symmetry; apply Nat.ltb_lt; lia).
  now rewrite Nat.sub_0_r.
Qed.

Lemma mmul_diag_l u c B :
  length B = length u ->
  mmul (diag_rows u) c B =
  tabulate (length u) c (fun i j => (nth i u 0 * entry B i j)%R).
Proof.
  intros HB. rewrite mmul_tabulate. unfold diag_rows at 1.
  rewrite length_tabulate. apply tabulate_ext. intros i j Hi Hj.
  unfold diag_rows. rewrite nth_tabulate by assumption.
  rewrite dot_comm.
  rewrite (map_ext _ (fun k => (nth i u 0 * delta k i)%R))
    by (intros k; now rewrite delta_sym).
  rewrite <- HB, <- (length_col j B).
  rewrite (dot_delta (col j B) (fun _ => nth i u 0%R) i 0). simpl.
  replace (i <? length (col j B))%nat with true
    by (symmetry; apply Nat.ltb_lt; rewrite length_col; lia).
  rewrite Nat.sub_0_r. unfold col, entry.
  rewrite (nth_indep _ 0%R (nth j [] 0%R)) by (rewrite length_map; lia).
  rewrite (map_nth (fun r => nth j r 0%R)). ring.
Qed.

Lemma vmul_as_indexed s x :
  length x = length s ->
  vmul s x = map (fun i => (nth i s 0 * nth i x 0)%R) (seq 0 (length s)).
Proof.
  revert x; induction s as [|a s IH]; intros [|b x] E; simpl in *;
    try discriminate; [reflexivity|].
  f_equal. rewrite <- seq_shift, map_map. apply IH. congruence.
Qed.

Lemma mv_diag_rows s x :
  length x = length s -> mv (diag_rows s) x = vmul s x.
Proof.
  intros E. rewrite vmul_as_indexed by assumption.
  unfold mv, diag_rows, tabulate. rewrite map_map.
  apply map_ext_in. intros i Hi. apply in_seq in Hi.
  rewrite dot_comm.
  rewrite (map_ext _ (fun k => (nth i s 0 * delta k i)%R))
    by (intros k; now rewrite delta_sym).
  rewrite <- E.
  rewrite (dot_delta x (fun _ => nth i s 0%R) i 0). simpl.
  replace (i <? length x)%nat with true by (symmetry; apply Nat.ltb_lt; lia).
  rewrite Nat.sub_0_r. ring.
Qed.

Lemma diag_rows_inverse u v :
  length v = length u ->
  (forall i, (i < length u)%nat -> (nth i u 0 * nth i v 0 = 1)%R) ->
  is_inverse (mkMat (length u) (diag_rows u)) (mkMat (length u) (diag_rows v)).
Proof.
  intros E H.
  assert (P : forall a b, length b = length a ->
            (forall i, (i < length a)%nat -> (nth i a 0 * nth i b 0 = 1)%R) ->
            mmul (diag_rows a) (length a) (diag_rows b) = identity (length a)).
  { intros a b Eab Hab. rewrite mmul_diag_l
      by (unfold diag_rows; now rewrite length_tabulate).
    apply tabulate_ext. intros i j Hi Hj. unfold diag_rows.
    rewrite Eab, entry_tabulate by assumption.
    destruct (delta_cases i j) as [-> | [_ ->]]; [ring|].
    rewrite Rmult_1_r. now apply Hab. }
  unfold is_inverse; simpl. repeat split.
  - unfold diag_rows. apply length_tabulate.
  - unfold diag_rows. apply rows_tabulate.
  - unfold diag_rows. now rewrite length_tabulate.
  - unfold diag_rows. rewrite E. apply rows_tabulate.
  - now apply P.
  - rewrite <- E. apply P; [congruence|].
    intros i Hi. rewrite Rmult_comm. apply H. congruence.
Qed.

(** * Symmetric and positive-definite matrices *)

Lemma symmetric_entry n A i j :
  square n A -> symmetric A -> (i < n)%nat -> (j < n)%nat ->
  entry A i j = entry A j i.
Proof.
  intros [Hl Hr] Hs Hi Hj. unfold symmetric in Hs.
  transitivity (entry (transpose (length A) A) i j); [now rewrite Hs|].
  rewrite transpose_tabulate, entry_tabulate by lia. reflexivity.
Qed.

Lemma mv_transpose n A y :
  mv (transpose n A) y = map (fun j => dot y (col j A)) (seq 0 n).
Proof.
  unfold mv, transpose. rewrite map_map. apply map_ext. intros j.
  apply dot_comm.
Qed.

Lemma dot_mv_symmetric n A x y :
  square n A -> symmetric A -> dot x (mv A y) = dot y (mv A x).
Proof.
  intros [Hl Hr] Hs.
  rewrite <- (dot_row_matrix y n A x) by assumption.
  rewrite <- mv_transpose, <- Hl, Hs. apply dot_comm.
Qed.

Lemma dot_self_nonneg x : (0 <= dot x x)%R.
Proof. induction x as [|a x IH]; simpl; [lra | nra]. Qed.

Lemma dot_self_pos x : nonzero x -> (0 < dot x x)%R.
Proof.
  unfold nonzero. induction 1 as [a x Ha | a x _ IH]; simpl.
  - pose proof (dot_self_nonneg x). nra.
  - nra.
Qed.

Lemma nonzero_vmul s x :
  length x = length s -> Forall (fun a => a <> 0%R) s -> nonzero x ->
  nonzero (vmul s x).
Proof.
  unfold nonzero. intros E Hs Hx. revert s E Hs.
  induction Hx as [b x Hb | b x _ IH]; intros [|a s] E Hs; simpl in *;
    try discriminate; inversion Hs; subst.
  - apply Exists_cons_hd. now apply Rmult_integral_contrapositive_currified.
  - apply Exists_cons_tl. apply IH; [congruence | assumption].
Qed.

Lemma basis_nonzero n i :
  (i < n)%nat -> nonzero (map (fun k => delta k i) (seq 0 n)).
Proof.
  intros Hi. apply Exists_exists. exists 1%R. split; [|lra].
  apply in_map_iff. exists i. split; [apply delta_diag | apply in_seq; lia].
Qed.

(** The diagonal of a positive-definite matrix is positive. *)
Lemma positive_definite_diagonal n A i :
  square n A -> positive_definite n A -> (i < n)%nat -> (0 < entry A i i)%R.
Proof.
  intros [Hl Hr] Hpd Hi.
  pose (e := map (fun k => delta k i) (seq 0 n)).
  assert (He : length e = n) by (unfold e; now rewrite length_map, length_seq).
  specialize (Hpd e He (basis_nonzero n i Hi)).
  assert (Hmv : mv A e = col i A).
  { unfold mv, col. apply map_ext_in. intros r Hin.
    rewrite Forall_forall in Hr. specialize (Hr r Hin).
    unfold e. rewrite <- Hr. apply dot_basis. lia. }
  rewrite Hmv, dot_comm in Hpd. unfold e in Hpd.
  rewrite <- Hl, <- (length_col i A) in Hpd.
  rewrite dot_basis in Hpd by (rewrite length_col; lia).
  unfold col in Hpd. unfold entry.
  rewrite (nth_indep _ 0%R (nth i [] 0%R)) in Hpd by (rewrite length_map; lia).
  now rewrite (map_nth (fun r => nth i r 0%R)) in Hpd.
Qed.

(** Every eigenvalue of a symmetric positive-definite matrix is a positive
    real number. *)
Lemma symmetric_positive_definite_spectrum n A lambda :
  square n A -> symmetric A -> positive_definite n A ->
  eigenvalue n A lambda -> snd lambda = 0%R /\ (0 < fst lambda)%R.
Proof.
  intros Hsq Hs Hpd (a & b & La & Lb & Hnz & Ea & Eb).
  destruct lambda as [al be]; simpl in *.
  assert (Hab : length (vscale al a) = length (vscale (- be) b))
    by (rewrite !length_vscale; congruence).
  assert (Hba : length (vscale be a) = length (vscale al b))
    by (rewrite !length_vscale; congruence).
  assert (F1 : dot b (mv A a) = (al * dot a b - be * dot b b)%R).
  { rewrite Ea, dot_comm, dot_vadd_l, !dot_vscale_l by assumption. ring. }
  assert (F2 : dot a (mv A b) = (be * dot a a + al * dot a b)%R).
  { rewrite Eb, dot_comm, dot_vadd_l, !dot_vscale_l by assumption.
    rewrite (dot_comm b a). ring. }
  assert (F3 : dot a (mv A a) = (al * dot a a - be * dot a b)%R).
  { rewrite Ea, dot_comm, dot_vadd_l, !dot_vscale_l by assumption.
    rewrite (dot_comm b a). ring. }
  assert (F4 : dot b (mv A b) = (be * dot a b + al * dot b b)%R).
  { rewrite Eb, dot_comm, dot_vadd_l, !dot_vscale_l by assumption. ring. }
  pose proof (dot_mv_symmetric n A b a Hsq Hs) as Hsym.
  rewrite F1, F2 in Hsym.
  pose proof (dot_self_nonneg a) as Na. pose proof (dot_self_nonneg b) as Nb.
  assert (Hpos : (0 < dot a a + dot b b)%R).
  { destruct Hnz as [Hz|Hz]; apply dot_self_pos in Hz; lra. }
  assert (Hbe : be = 0%R).
  { assert (Hz : (be * (dot a a + dot b b) = 0)%R) by lra.
    apply Rmult_integral in Hz. destruct Hz; [assumption | lra]. }
  split; [exact Hbe|]. subst be.
  destruct Hnz as [Hz|Hz].
  - specialize (Hpd a La Hz). rewrite F3 in Hpd.
    apply dot_self_pos in Hz. nra.
  - specialize (Hpd b Lb Hz). rewrite F4 in Hpd.
    apply dot_self_pos in Hz. nra.
Qed.

Lemma identity_square n : square n (identity n).
Proof. apply square_tabulate. Qed.

Lemma identity_symmetric n : symmetric (identity n).
Proof.
  unfold symmetric, identity. rewrite transpose_tabulate, length_tabulate.
  apply tabulate_ext. intros i j Hi Hj.
  rewrite entry_tabulate by assumption. apply delta_sym.
Qed.

Lemma identity_positive_definite n : positive_definite n (identity n).
Proof.
  intros x Hx Hnz. rewrite mv_identity by assumption. now apply dot_self_pos.
Qed.

(** * The rotation and its inverse *)

Ltac rows_eq :=
  repeat match goal with
         | |- _ :: _ = _ :: _ => f_equal
         | |- @eq R _ _ => lra
         | |- @eq (list _) [] [] => reflexivity
         end.

Lemma transform_data_2d_square (X R : matrix) :
  nrows R = ncols R -> transform_data X (Mat R) = np_dot X R.
Proof.
  intros E. unfold transform_data. simpl. now rewrite E, Nat.eqb_refl.
Qed.

Lemma inverse_transform_data_2d_square (X R : matrix) :
  nrows R = ncols R ->
  inverse_transform_data X (Mat R) = np_dot X (np_transpose R).
Proof.
  intros E. unfold inverse_transform_data. simpl. now rewrite E, Nat.eqb_refl.
Qed.

(** Both functions refuse exactly the rotations that are not 2-D or not
    square, with an [Exception] of their own. *)
Lemma transform_data_validation (X : matrix) (rotation : ndarray) :
  (length (shape rotation) <> 2%nat \/
   nth 0 (shape rotation) 0%nat <> nth 1 (shape rotation) 0%nat) ->
  (exists msg, transform_data X rotation = Raise (Exception msg)) /\
  (exists msg, inverse_transform_data X rotation = Raise (Exception msg)).
Proof.
  intros H. unfold transform_data, inverse_transform_data.
  destruct (Nat.eqb_spec (length (shape rotation)) 2) as [E2|N2]; simpl.
  - destruct (Nat.eqb_spec (nth 0 (shape rotation) 0%nat)
                           (nth 1 (shape rotation) 0%nat)) as [E|N]; simpl.
    + destruct H; contradiction.
    + split; eexists; reflexivity.
  - split; eexists; reflexivity.
Qed.

(** Multiplying by an orthonormal matrix and then by its transpose. *)
Lemma np_dot_round_trip (X R : matrix) :
  well_formed X -> ncols X = ncols R -> orthonormal R ->
  let Y := mkMat (ncols R) (mmul (rows X) (ncols R) (rows R)) in
  np_dot X R = Return Y /\ np_dot Y (np_transpose R) = Return X.
Proof.
  intros HX HD ([Hl Hr] & HRRt & _) Y. split.
  - unfold np_dot, nrows. now rewrite HD, Hl, Nat.eqb_refl.
  - unfold np_dot, np_transpose, nrows, Y; simpl.
    unfold transpose at 1. rewrite length_map, length_seq, Nat.eqb_refl.
    rewrite Hl, mmul_assoc, HRRt by assumption.
    rewrite mmul_identity_r by (unfold well_formed in HX; now rewrite <- HD).
    destruct X; simpl in *. now subst.
Qed.

(** C4.  For every well-formed sample matrix X of D columns and every
    orthonormal D x D rotation R, transforming X by R succeeds, and the
    inverse transform of the result by R gives X back (exactly, floats being
    read as reals). *)
Theorem inverse_transform_round_trip (X R : matrix) :
  well_formed X -> ncols X = ncols R -> orthonormal R ->
  exists Y,
    transform_data X (Mat R) = Return Y /\
    inverse_transform_data Y (Mat R) = Return X.
Proof.
  intros HX HD HR.
  assert (Hsq : nrows R = ncols R) by apply HR.
  exists (mkMat (ncols R) (mmul (rows X) (ncols R) (rows R))).
  rewrite transform_data_2d_square, inverse_transform_data_2d_square
    by assumption.
  now apply np_dot_round_trip.
Qed.

(** The same for the rotation [rot_matrix] derives, whenever the
    eigen-solver hands back an orthonormal basis. *)
Lemma rot_matrix_round_trip {L : LinearAlgebraLibrary} (X R : matrix) :
  well_formed X -> rot_matrix X = Return R -> ncols R = ncols X ->
  orthonormal R ->
  exists Y,
    transform_data X (Mat R) = Return Y /\
    inverse_transform_data Y (Mat R) = Return X.
Proof.
  intros HX _ HD HR.
  assert (Hsq : nrows R = ncols R) by apply HR.
  exists (mkMat (ncols R) (mmul (rows X) (ncols R) (rows R))).
  rewrite transform_data_2d_square, inverse_transform_data_2d_square
    by assumption.
  apply np_dot_round_trip; auto.
Qed.

(** * is_pos_def *)

Lemma sign_matrix_eigenvalue : eigenvalue 2 (rows sign_matrix) (-1, 0)%R.
Proof.
  exists [0; 1]%R, [0; 0]%R. repeat split.
  - left. apply Exists_cons_tl, Exists_cons_hd. lra.
  - simpl. rows_eq.
  - simpl. rows_eq.
Qed.

Lemma all_eigenvalues_positive_iff (m : matrix) :
  all_eigenvalues_positive m = true <->
  (forall lambda, eigenvalue (ncols m) (rows m) lambda -> np_greater_0 lambda).
Proof.
  unfold all_eigenvalues_positive.
  destruct (excluded_middle_informative _) as [H|H]; split; auto.
  discriminate.
Qed.

Lemma is_pos_def_square (m : matrix) :
  nrows m = ncols m -> is_pos_def (Mat m) = Return (all_eigenvalues_positive m).
Proof.
  intros Hsq. unfold is_pos_def. simpl. now rewrite Hsq, Nat.eqb_refl.
Qed.

(** C7.  [is_pos_def] raises exactly when its input is not 2-D or not
    square, and then an [Exception] of its own; on a square 2-D input it
    returns whether every eigenvalue is greater than 0: False for
    [[1,0],[0,-1]], True for every identity matrix. *)
Theorem is_pos_def_spec (x : ndarray) :
  (raises (is_pos_def x) <->
   (length (shape x) <> 2%nat \/
    nth 0 (shape x) 0%nat <> nth 1 (shape x) 0%nat)) /\
  (forall e, is_pos_def x = Raise e -> exists msg, e = Exception msg) /\
  (forall m, x = Mat m -> nrows m = ncols m ->
     exists b, is_pos_def x = Return b /\
       (b = true <->
        forall lambda, eigenvalue (ncols m) (rows m) lambda ->
                       np_greater_0 lambda)) /\
  is_pos_def (Mat sign_matrix) = Return false /\
  (forall n, is_pos_def (Mat (mkMat n (identity n))) = Return true).
Proof.
  split; [|split; [|split; [|split]]].
  - unfold is_pos_def.
    destruct (Nat.eqb_spec (length (shape x)) 2) as [E2|N2]; simpl.
    + destruct (Nat.eqb_spec (nth 0 (shape x) 0%nat)
                             (nth 1 (shape x) 0%nat)) as [E|N]; simpl.
      * split; [contradiction | intros [H|H]; contradiction].
      * split; auto.
    + split; auto.
  - unfold is_pos_def. intros e.
    destruct (negb _); [intros [= <-]; eexists; reflexivity|].
    destruct (negb _); [intros [= <-]; eexists; reflexivity|].
    discriminate.
  - intros m -> Hsq. exists (all_eigenvalues_positive m). split.
    + now apply is_pos_def_square.
    + apply all_eigenvalues_positive_iff.
  - rewrite is_pos_def_square by reflexivity. f_equal.
    destruct (all_eigenvalues_positive sign_matrix) eqn:E; [|reflexivity].
    pose proof (proj1 (all_eigenvalues_positive_iff sign_matrix) E) as P.
    specialize (P _ sign_matrix_eigenvalue). clear E. rename P into E.
    destruct E as [E|[E _]]; simpl in E; lra.
  - intros n. rewrite is_pos_def_square
      by (unfold nrows, identity; simpl; apply length_tabulate).
    f_equal. apply all_eigenvalues_positive_iff. simpl. intros lambda H.
    left. eapply symmetric_positive_definite_spectrum; eauto.
    + apply identity_square.
    + apply identity_symmetric.
    + apply identity_positive_definite.
Qed.

(** * The mixture constructors *)

Section Constructors.

Context {G : BitGenerator} {T : DistributionLibrary}.

Lemma reset_random_seeds_reproducible seed :
  reproducible (reset_random_seeds seed).
Proof.
  intros w1 w2. unfold reset_random_seeds, bind, np_random_seed.
  destruct ((0 <=? seed) && (seed <? 2 ^ 32))%Z; simpl; split; auto.
  intros a H. discriminate H.
Qed.

Lemma reproducible_bind {A B} (c : M A) (k : A -> M B) :
  reproducible c -> reproducible (bind c k).
Proof.
  intros H w1 w2. unfold bind. destruct (H w1 w2) as [E1 E2].
  destruct (c w1) as [[a|e] w1'], (c w2) as [[a'|e'] w2']; simpl in *;
    try discriminate.
  - injection E1 as <-. rewrite (E2 a eq_refl). auto.
  - injection E1 as <-. split; [reflexivity | intros a Ha; discriminate Ha].
Qed.

Lemma draw_parameters_reproducible wt n d seed :
  reproducible (draw_parameters wt n d seed).
Proof. apply reproducible_bind, reset_random_seeds_reproducible. Qed.

Lemma constructor_draws_parameters v n d seed :
  exists assemble,
    constructor v n d seed =
    bind (draw_parameters (weights_of v) n d seed) assemble.
Proof. destruct v; eexists; reflexivity. Qed.

(** C3.  Whatever the process-wide random state before each call, two
    calls of one constructor with the same arguments draw the same location,
    scale and weight arrays (and end alike, with the same distribution or
    the same exception); the arrays are those the constructor starts by
    drawing, right after resetting the seeds. *)
Theorem parameters_reproducible (v : variant) (n d seed : Z) (w1 w2 : World) :
  fst (draw_parameters (weights_of v) n d seed w1) =
  fst (draw_parameters (weights_of v) n d seed w2) /\
  fst (constructor v n d seed w1) = fst (constructor v n d seed w2) /\
  exists assemble,
    constructor v n d seed =
    bind (draw_parameters (weights_of v) n d seed) assemble.
Proof.
  split; [apply draw_parameters_reproducible|].
  destruct (constructor_draws_parameters v n d seed) as [k Hk].
  split; [|now exists k].
  rewrite Hk. apply reproducible_bind, draw_parameters_reproducible.
Qed.

(** ** The range of the draws *)

Lemma random_sample_range s : in_unit_interval (fst (random_sample s)).
Proof.
  unfold random_sample, in_unit_interval.
  pose proof (genrand_int32_range s) as H1.
  destruct (genrand_int32 s) as [y1 s1]. simpl in H1.
  pose proof (genrand_int32_range s1) as H2.
  destruct (genrand_int32 s1) as [y2 s2]. simpl in H2. simpl.
  rewrite !Z.shiftr_div_pow2 by lia.
  assert (Ha : (0 <= y1 / 2 ^ 5 < 2 ^ 27)%Z).
  { split; [apply Z.div_pos; lia | apply Z.div_lt_upper_bound; lia]. }
  assert (Hb : (0 <= y2 / 2 ^ 6 < 2 ^ 26)%Z).
  { split; [apply Z.div_pos; lia | apply Z.div_lt_upper_bound; lia]. }
  set (k := (y1 / 2 ^ 5 * 67108864 + y2 / 2 ^ 6)%Z).
  assert (Hk : (0 <= k < 9007199254740992)%Z) by (unfold k; lia).
  destruct Hk as [Hk0 Hk1]. apply IZR_le in Hk0. apply IZR_lt in Hk1.
  lra.
Qed.

Lemma random_vector_range k s :
  Forall in_unit_interval (fst (random_vector k s)).
Proof.
  revert s; induction k as [|k IH]; intros s; simpl; [constructor|].
  pose proof (random_sample_range s) as Hx.
  destruct (random_sample s) as [x s1].
  specialize (IH s1). destruct (random_vector k s1) as [xs s2].
  simpl in *. now constructor.
Qed.

Lemma random_rows_range n d s :
  Forall (Forall in_unit_interval) (fst (random_rows n d s)).
Proof.
  revert s; induction n as [|n IH]; intros s; simpl; [constructor|].
  pose proof (random_vector_range d s) as Hx.
  destruct (random_vector d s) as [row s1].
  specialize (IH s1). destruct (random_rows n d s1) as [rs s2].
  simpl in *. now constructor.
Qed.

Lemma np_random_sample2_range n d w rs w' :
  np_random_sample2 n d w = (Return rs, w') ->
  Forall (Forall in_unit_interval) rs.
Proof.
  unfold np_random_sample2.
  destruct ((n <? 0) || (d <? 0))%Z; [discriminate|].
  pose proof (random_rows_range (Z.to_nat n) (Z.to_nat d) (np_random w)) as H.
  destruct (random_rows _ _ _) as [rows0 s]. simpl in H.
  now intros [= <- _].
Qed.

(** Every entry of the scale array a constructor draws lies in the
    half-open interval from 0 to 1: it is never negative and never reaches
    1.  (The interval is closed at 0: the formula of [random_sample] gives
    0.0 when the two 32-bit outputs are below 32 and below 64.) *)
Theorem scale_in_unit_interval (v : variant) (n d seed : Z) (w : World)
    (p : parameters) :
  fst (draw_parameters (weights_of v) n d seed w) = Return p ->
  Forall (Forall in_unit_interval) (scale p).
Proof.
  unfold draw_parameters, bind.
  destruct (reset_random_seeds seed w) as [[[]|e] w0]; [|discriminate].
  destruct (np_random_sample2 n d w0) as [[loc0|e] w1]; [|discriminate].
  destruct (np_random_sample2 n d w1) as [[sc|e] w2] eqn:E2; [|discriminate].
  apply np_random_sample2_range in E2.
  destruct (weights_of v).
  - destruct (np_random_sample2 d n w2) as [[pr|e] w3]; [|discriminate].
    simpl. now intros [= <-].
  - destruct (np_random_sample1 n w2) as [[pr|e] w3]; [|discriminate].
    simpl. now intros [= <-].
Qed.

(** ** Which calls return, and what a call can raise *)

Lemma reset_random_seeds_returns seed w :
  (0 <= seed < 2 ^ 32)%Z ->
  exists w', reset_random_seeds seed w = (Return tt, w').
Proof.
  intros H. unfold reset_random_seeds, bind, np_random_seed.
  replace ((0 <=? seed) && (seed <? 2 ^ 32))%Z with true
    by (symmetry; apply andb_true_iff; split;
        [apply Z.leb_le | apply Z.ltb_lt]; lia).
  eexists. reflexivity.
Qed.

Lemma np_random_sample2_returns n d w :
  (0 <= n)%Z -> (0 <= d)%Z ->
  exists rs w', np_random_sample2 n d w = (Return rs, w').
Proof.
  intros Hn Hd. unfold np_random_sample2.
  replace ((n <? 0) || (d <? 0))%Z with false
    by (symmetry; apply orb_false_iff; split; apply Z.ltb_ge; lia).
  destruct (random_rows _ _ _) as [rs s]. eexists. eexists. reflexivity.
Qed.

Lemma np_random_sample1_returns n w :
  (0 <= n)%Z -> exists v w', np_random_sample1 n w = (Return v, w').
Proof.
  intros Hn. unfold np_random_sample1.
  replace (n <? 0)%Z with false by (symmetry; apply Z.ltb_ge; lia).
  destruct (random_vector _ _) as [v s]. eexists. eexists. reflexivity.
Qed.

Lemma draw_parameters_returns wt n d seed w :
  (0 <= n)%Z -> (0 <= d)%Z -> (0 <= seed < 2 ^ 32)%Z ->
  exists p w', draw_parameters wt n d seed w = (Return p, w').
Proof.
  intros Hn Hd Hs. unfold draw_parameters, bind.
  destruct (reset_random_seeds_returns seed w Hs) as [w0 ->].
  destruct (np_random_sample2_returns n d w0 Hn Hd) as (l & w1 & ->).
  destruct (np_random_sample2_returns n d w1 Hn Hd) as (sc & w2 & ->).
  destruct wt.
  - destruct (np_random_sample2_returns d n w2 Hd Hn) as (pr & w3 & ->).
    eexists. eexists. reflexivity.
  - destruct (np_random_sample1_returns n w2 Hn) as (pr & w3 & ->).
    eexists. eexists. reflexivity.
Qed.

Lemma ensures_bind {A B} (c : M A) (k : A -> M B) (Q : A -> Prop) (Q' : B -> Prop) :
  ensures c Q -> (forall a, Q a -> ensures (k a) Q') -> ensures (bind c k) Q'.
Proof.
  intros Hc Hk w. unfold bind. specialize (Hc w).
  destruct (c w) as [[a|e] w']; simpl in *; [|assumption].
  apply (Hk a Hc).
Qed.

Lemma ensures_ret {A} (a : A) (Q : A -> Prop) : Q a -> ensures (ret a) Q.
Proof. intros H w. exact H. Qed.

Lemma ensures_weaken {A} (c : M A) (Q Q' : A -> Prop) :
  ensures c Q -> (forall a, Q a -> Q' a) -> ensures c Q'.
Proof.
  intros H HQ w. specialize (H w). destruct (fst (c w)); auto.
Qed.

Lemma ensures_reset_random_seeds seed :
  ensures (reset_random_seeds seed) (fun _ => True).
Proof.
  intros w. unfold reset_random_seeds, bind, np_random_seed.
  destruct ((0 <=? seed) && (seed <? 2 ^ 32))%Z; simpl; auto.
Qed.

Lemma ensures_np_random_sample2 n d :
  ensures (np_random_sample2 n d) (fun _ => True).
Proof.
  intros w. unfold np_random_sample2.
  destruct ((n <? 0) || (d <? 0))%Z; simpl; auto.
  destruct (random_rows _ _ _); simpl; auto.
Qed.

Lemma ensures_np_random_sample1 n :
  ensures (np_random_sample1 n) (fun _ => True).
Proof.
  intros w. unfold np_random_sample1.
  destruct (n <? 0)%Z; simpl; auto.
  destruct (random_vector _ _); simpl; auto.
Qed.

Lemma ensures_construct dist : ensures (construct dist) (fun _ => True).
Proof. intros w. unfold construct. destruct (accepts dist); simpl; auto. Qed.

Lemma ensures_tfd_Independent_0 dist :
  ensures (tfd_Independent dist 0) (fun _ => True).
Proof. intros w. exact I. Qed.

Lemma ensures_draw_parameters wt n d seed :
  ensures (draw_parameters wt n d seed) (fun _ => True).
Proof.
  unfold draw_parameters.
  eapply ensures_bind; [apply ensures_reset_random_seeds|]; intros _ _.
  eapply ensures_bind; [apply ensures_np_random_sample2|]; intros l _.
  eapply ensures_bind; [apply ensures_np_random_sample2|]; intros sc _.
  eapply ensures_bind with (Q := fun _ => True); [|intros; now apply ensures_ret].
  destruct wt.
  - eapply ensures_bind; [apply ensures_np_random_sample2|]; intros.
    now apply ensures_ret.
  - eapply ensures_bind; [apply ensures_np_random_sample1|]; intros.
    now apply ensures_ret.
Qed.

Lemma ensures_load {A} name (v : option A) :
  bound v -> ensures (load name v) (fun _ => True).
Proof. intros H w. destruct v; [exact I | now elim H]. Qed.

Lemma ensures_for_each_bound {A} (xs : list A)
    (body : A -> option (list Distribution) -> M (option (list Distribution)))
    (s : option (list Distribution)) :
  (forall x s', bound s' -> ensures (body x s') bound) ->
  bound s -> ensures (for_each xs body s) bound.
Proof.
  intros Hbody. revert s. induction xs as [|x xs IH]; intros s Hs; simpl.
  - now apply ensures_ret.
  - eapply ensures_bind; [now apply Hbody | exact IH].
Qed.

Lemma ensures_append_Normal p i s :
  bound s -> ensures (append_Normal p i s) bound.
Proof.
  intros Hs. unfold append_Normal.
  eapply ensures_bind; [now apply ensures_load|]; intros cs _.
  eapply ensures_bind; [apply ensures_construct|]; intros c _.
  apply ensures_ret. discriminate.
Qed.

Lemma ensures_append_MultivariateNormalDiag p i s :
  bound s -> ensures (append_MultivariateNormalDiag p i s) bound.
Proof.
  intros Hs. unfold append_MultivariateNormalDiag.
  eapply ensures_bind; [now apply ensures_load|]; intros cs _.
  eapply ensures_bind; [apply ensures_construct|]; intros c _.
  apply ensures_ret. discriminate.
Qed.

Ltac ensures_step :=
  first
    [ eapply ensures_bind;
      [ first [ apply ensures_draw_parameters
              | apply ensures_construct
              | apply ensures_tfd_Independent_0 ] | intros ? _ ]
    | apply ensures_construct
    | apply ensures_tfd_Independent_0 ].

(** Seven of the eight constructors raise nothing of their own: whatever
    they raise comes out of a library call. *)
Lemma constructors_raise_in_libraries v n d seed :
  v <> V_MixMultiNormal1_indep ->
  ensures (constructor v n d seed) (fun _ => True).
Proof.
  intros Hv.
  destruct v; try (now elim Hv); simpl;
    unfold MixNormal1, MixNormal2, MixNormal1_indep, MixNormal2_indep,
      MixMultiNormal1, MixMultiNormal2, MixMultiNormal2_indep,
      tfd_Categorical, tfd_Normal, tfd_MultivariateNormalDiag, tfd_Mixture,
      tfd_MixtureSameFamily;
    (eapply ensures_bind; [apply ensures_draw_parameters|]; intros p _);
    try (eapply ensures_bind;
         [ apply ensures_for_each_bound;
           [ intros; first [ now apply ensures_append_Normal
                           | now apply ensures_append_MultivariateNormalDiag ]
           | discriminate ]
         | intros cs Hcs;
           eapply ensures_bind; [apply ensures_construct|]; intros cat _;
           eapply ensures_bind; [now apply ensures_load|]; intros cs' _ ]);
    repeat ensures_step.
Qed.

(** ** The constructor that never returns *)

Lemma for_each_unbound p x xs w :
  for_each (x :: xs) (append_MultivariateNormalDiag p) None w =
  (Raise (UnboundLocalError "components"), w).
Proof. reflexivity. Qed.

Lemma range_positive n : (1 <= n)%Z -> exists xs, range n = 0%nat :: xs.
Proof.
  intros H. unfold range.
  destruct (Z.to_nat n) as [|k] eqn:E; [lia|]. simpl. eauto.
Qed.

(** C2, at the constructor that breaks it.  With at least one component,
    [MixMultiNormal1_indep] raises [UnboundLocalError] for [components] at
    its first [append]: an exception of the constructor's own code, not of a
    library. *)
Theorem MixMultiNormal1_indep_unbound_local (n d seed : Z) (w : World) :
  (1 <= n)%Z -> (0 <= d)%Z -> (0 <= seed < 2 ^ 32)%Z ->
  fst (MixMultiNormal1_indep n d seed w) = Raise (UnboundLocalError "components") /\
  raised_by_library (UnboundLocalError "components") = false.
Proof.
  intros Hn Hd Hs. split; [|reflexivity].
  unfold MixMultiNormal1_indep, bind.
  destruct (draw_parameters_returns Shared n d seed w) as (p & w0 & ->);
    try lia.
  destruct (range_positive n Hn) as [xs ->].
  now rewrite for_each_unbound.
Qed.

(** C1, at the pair that breaks it.  Whenever [MixMultiNormal1] returns a
    distribution, [MixMultiNormal1_indep] called with the same arguments in
    the same state returns none: it raises [UnboundLocalError], so there is
    no sample to compare. *)
Theorem MixMultiNormal1_indep_diverges (n d seed : Z) (w : World)
    (dist : Distribution) :
  fst (MixMultiNormal1 n d seed w) = Return dist ->
  fst (MixMultiNormal1_indep n d seed w) = Raise (UnboundLocalError "components").
Proof.
  unfold MixMultiNormal1, MixMultiNormal1_indep, bind.
  destruct (draw_parameters Shared n d seed w) as [[p|e] w0]; [|discriminate].
  destruct (range n) as [|x xs].
  - simpl. unfold tfd_Categorical, construct.
    destruct (accepts (Categorical (probs p))); [reflexivity | discriminate].
  - intros _. now rewrite for_each_unbound.
Qed.

Lemma wraps_Independent (c : M Distribution) (w : World) :
  wraps (fst (c w)) (fst (bind c (fun a => tfd_Independent a 0) w)).
Proof.
  unfold bind. destruct (c w) as [[a|e] w']; simpl; auto.
Qed.

Ltac run_both :=
  unfold bind, wraps;
  repeat (match goal with
          | |- context [match ?x with (_, _) => _ end] =>
              destruct x as [[?|?] ?]
          end; simpl);
  auto.

(** The other three pairs: called with the same arguments in the same
    state, the plain and the wrapped constructor raise the same exception
    or return distributions with the same samples. *)
Lemma independent_pairs_same_samples (n d seed : Z) (w : World) :
  wraps (fst (MixNormal1 n d seed w)) (fst (MixNormal1_indep n d seed w)) /\
  wraps (fst (MixNormal2 n d seed w)) (fst (MixNormal2_indep n d seed w)) /\
  wraps (fst (MixMultiNormal2 n d seed w)) (fst (MixMultiNormal2_indep n d seed w)).
Proof.
  repeat split.
  - unfold MixNormal1, MixNormal1_indep. run_both.
  - unfold MixNormal2, MixNormal2_indep. run_both.
  - unfold MixMultiNormal2, MixMultiNormal2_indep. run_both.
Qed.

End Constructors.

(** * Correlation and covariance matrices *)

Lemma scaled_entry n V s i j :
  square n V -> length s = n -> (i < n)%nat -> (j < n)%nat ->
  entry (mmul (mmul (diag_rows s) n V) n (diag_rows s)) i j =
  (nth i s 0 * entry V i j * nth j s 0)%R.
Proof.
  intros [Hl Hr] Hs. rewrite <- Hs in Hl, Hr |- *. intros Hi Hj.
  rewrite mmul_diag_l by assumption.
  rewrite mmul_diag_r by apply rows_tabulate.
  rewrite length_tabulate.
  rewrite !entry_tabulate by assumption. reflexivity.
Qed.

Lemma scaled_square n V s :
  length s = n -> square n (mmul (mmul (diag_rows s) n V) n (diag_rows s)).
Proof.
  intros Hs. apply square_mmul. rewrite length_mmul.
  unfold diag_rows. now rewrite length_tabulate.
Qed.

Lemma symmetric_from_entries n M :
  square n M ->
  (forall i j, (i < n)%nat -> (j < n)%nat -> entry M i j = entry M j i) ->
  symmetric M.
Proof.
  intros [Hl Hr] H. unfold symmetric.
  rewrite transpose_tabulate, Hl.
  transitivity (tabulate n n (entry M)); [|now apply tabulate_entry].
  apply tabulate_ext. intros i j Hi Hj. now apply H.
Qed.

Lemma scaled_symmetric n V s :
  square n V -> symmetric V -> length s = n ->
  symmetric (mmul (mmul (diag_rows s) n V) n (diag_rows s)).
Proof.
  intros Hsq Hsym Hs. apply (symmetric_from_entries n).
  - now apply scaled_square.
  - intros i j Hi Hj. rewrite !scaled_entry by assumption.
    rewrite (symmetric_entry n V i j) by assumption. ring.
Qed.

Lemma scaled_positive_definite n V s :
  square n V -> positive_definite n V -> length s = n ->
  Forall (fun a => a <> 0%R) s ->
  positive_definite n (mmul (mmul (diag_rows s) n V) n (diag_rows s)).
Proof.
  intros [Hl Hr] Hpd Hs Hnz x Hx Hx0.
  rewrite mv_mmul
    by (unfold diag_rows; rewrite Hs; apply rows_tabulate).
  rewrite mv_mmul by assumption.
  rewrite (mv_diag_rows s x) by congruence.
  rewrite mv_diag_rows
    by (rewrite length_mv; congruence).
  rewrite <- dot_vmul_l.
  apply Hpd.
  - rewrite length_vmul; congruence.
  - apply nonzero_vmul; [congruence | assumption | assumption].
Qed.

Lemma map_const_seq (c : R) s n : map (fun _ => c) (seq s n) = repeat c n.
Proof.
  revert s; induction n as [|n IH]; intros s; simpl; [reflexivity|].
  now rewrite IH.
Qed.

Section Correlation.

Context {G : BitGenerator} {DS : DatasetLibrary G}.

Lemma make_spd_matrix_returns n seed w :
  (0 <= n)%Z -> (0 <= seed < 2 ^ 32)%Z ->
  make_spd_matrix n seed w =
  (Return (mkMat (Z.to_nat n) (spd (Z.to_nat n) (init_genrand seed))), w).
Proof.
  intros Hn Hs. unfold make_spd_matrix.
  replace ((0 <=? seed) && (seed <? 2 ^ 32))%Z with true
    by (symmetry; apply andb_true_iff; split;
        [apply Z.leb_le | apply Z.ltb_lt]; lia).
  replace (n <? 0)%Z with false by (symmetry; apply Z.ltb_ge; lia).
  reflexivity.
Qed.

Lemma np_diag2_square n V :
  length V = n ->
  np_diag2 (mkMat n V) = map (fun i => entry V i i) (seq 0 n).
Proof.
  intros H. unfold np_diag2, nrows. simpl. now rewrite H, Nat.min_id.
Qed.

Lemma length_inverse_roots n V :
  length V = n -> length (inverse_roots (mkMat n V)) = n.
Proof.
  intros H. unfold inverse_roots.
  now rewrite np_diag2_square, !length_map, length_seq.
Qed.

Lemma nth_inverse_roots n V i :
  length V = n -> (i < n)%nat ->
  nth i (inverse_roots (mkMat n V)) 0%R = (/ sqrt (entry V i i))%R.
Proof.
  intros H Hi. unfold inverse_roots. rewrite np_diag2_square by assumption.
  rewrite map_map.
  apply (nth_map_seq (fun i => (/ sqrt (entry V i i))%R)). assumption.
Qed.

Lemma normalised_spd_matrix_value n seed w :
  (0 <= n)%Z -> (0 <= seed < 2 ^ 32)%Z ->
  let N := Z.to_nat n in
  let V := spd N (init_genrand seed) in
  let s := inverse_roots (mkMat N V) in
  normalised_spd_matrix n seed w =
  (Return (mkMat N (mmul (mmul (diag_rows s) N V) N (diag_rows s))), w).
Proof.
  intros Hn Hs N V s. unfold normalised_spd_matrix, bind.
  rewrite make_spd_matrix_returns by assumption. fold N. fold V.
  destruct (spd_square N (init_genrand seed)) as [Hl Hr]. fold V in Hl, Hr.
  set (d := np_diag2 (mkMat N V)).
  assert (Hd : length d = N).
  { unfold d. now rewrite np_diag2_square, length_map, length_seq. }
  assert (Hlen : length s = N) by now apply length_inverse_roots.
  assert (HD : np_sqrt (np_diag1 d) =
               mkMat (length (map sqrt d)) (diag_rows (map sqrt d))).
  { unfold np_sqrt, np_diag1. simpl. now rewrite sqrt_diag_rows, length_map. }
  rewrite HD. unfold lift.
  rewrite (np_linalg_inv_spec _ (mkMat (length (map sqrt d)) (diag_rows s))).
  2:{ apply diag_rows_inverse.
      - rewrite length_map. congruence.
      - rewrite length_map, Hd. intros i Hi.
        rewrite nth_map0 by lia.
        unfold s. rewrite nth_inverse_roots by assumption.
        unfold d. rewrite np_diag2_square by assumption.
        rewrite (nth_map_seq (fun i => entry V i i)) by assumption.
        apply Rinv_r.
        pose proof (positive_definite_diagonal N V i (conj Hl Hr)
                      (spd_positive N (init_genrand seed)) Hi) as Hpos.
        apply sqrt_lt_R0 in Hpos. lra. }
  unfold np_matmul, np_dot, nrows. simpl.
  rewrite length_map, Hd, Hl, Nat.eqb_refl. simpl.
  replace (length (diag_rows s)) with N
    by (unfold diag_rows; now rewrite length_tabulate).
  now rewrite Nat.eqb_refl.
Qed.

Lemma inverse_roots_nonzero n V :
  square n V -> positive_definite n V ->
  Forall (fun a => a <> 0%R) (inverse_roots (mkMat n V)).
Proof.
  intros [Hl Hr] Hpd. unfold inverse_roots.
  rewrite np_diag2_square by assumption. rewrite map_map.
  apply Forall_forall. intros a Ha.
  apply in_map_iff in Ha as (i & <- & Hi). apply in_seq in Hi.
  pose proof (positive_definite_diagonal n V i (conj Hl Hr) Hpd) as Hpos.
  apply Rinv_neq_0_compat.
  assert (0 < sqrt (entry V i i))%R by (apply sqrt_lt_R0, Hpos; lia). lra.
Qed.

Lemma RandCorr_value n seed w :
  (0 <= n)%Z -> (0 <= seed < 2 ^ 32)%Z ->
  let N := Z.to_nat n in
  let V := spd N (init_genrand seed) in
  let s := inverse_roots (mkMat N V) in
  fst (RandCorr n seed w) =
  Return (mkMat N (mmul (mmul (diag_rows s) N V) N (diag_rows s))).
Proof.
  intros Hn Hs N V s. unfold RandCorr, bind, np_random_seed.
  change ((0 <=? 0) && (0 <? 2 ^ 32))%Z with true. cbv iota beta.
  now rewrite normalised_spd_matrix_value.
Qed.

Lemma normalised_unit_diagonal N seed :
  let V := spd N (init_genrand seed) in
  let s := inverse_roots (mkMat N V) in
  np_diag2 (mkMat N (mmul (mmul (diag_rows s) N V) N (diag_rows s))) =
  repeat 1%R N.
Proof.
  intros V s.
  pose proof (spd_square N (init_genrand seed)) as Hsq. fold V in Hsq.
  pose proof (spd_positive N (init_genrand seed)) as Hpd. fold V in Hpd.
  assert (Hlen : length s = N) by (apply length_inverse_roots, Hsq).
  rewrite np_diag2_square by apply scaled_square, Hlen.
  rewrite <- (map_const_seq 1%R 0 N). apply map_ext_in.
  intros i Hi. apply in_seq in Hi.
  rewrite scaled_entry by (assumption || lia).
  unfold s. rewrite nth_inverse_roots by (apply Hsq || lia).
  pose proof (positive_definite_diagonal N V i Hsq Hpd) as Hpos.
  assert (Hv : (0 < entry V i i)%R) by (apply Hpos; lia).
  pose proof (sqrt_lt_R0 _ Hv) as Hr.
  rewrite <- (sqrt_sqrt (entry V i i)) at 2 by lra.
  field. lra.
Qed.

(** C5.  For a size that is not negative and a seed the generator takes,
    [RandCorr] returns a square matrix of that size which is symmetric, has
    every diagonal entry equal to 1, and whose eigenvalues are all positive
    real numbers, so that [is_pos_def] says True of it. *)
Theorem RandCorr_correlation_matrix (matrixSize seed : Z) (w : World) :
  (0 <= matrixSize)%Z -> (0 <= seed < 2 ^ 32)%Z ->
  exists C,
    fst (RandCorr matrixSize seed w) = Return C /\
    ncols C = Z.to_nat matrixSize /\
    square (ncols C) (rows C) /\
    symmetric (rows C) /\
    np_diag2 C = repeat 1%R (ncols C) /\
    (forall lambda, eigenvalue (ncols C) (rows C) lambda ->
                    snd lambda = 0%R /\ (0 < fst lambda)%R) /\
    is_pos_def (Mat C) = Return true.
Proof.
  intros Hn Hs.
  set (N := Z.to_nat matrixSize).
  set (V := spd N (init_genrand seed)).
  set (s := inverse_roots (mkMat N V)).
  pose proof (spd_square N (init_genrand seed)) as Hsq. fold V in Hsq.
  pose proof (spd_symmetric N (init_genrand seed)) as Hsym. fold V in Hsym.
  pose proof (spd_positive N (init_genrand seed)) as Hpd. fold V in Hpd.
  assert (Hlen : length s = N) by (apply length_inverse_roots, Hsq).
  assert (Hnz : Forall (fun a => a <> 0%R) s)
    by now apply inverse_roots_nonzero.
  exists (mkMat N (mmul (mmul (diag_rows s) N V) N (diag_rows s))).
  assert (Hspec : forall lambda,
             eigenvalue N (mmul (mmul (diag_rows s) N V) N (diag_rows s)) lambda ->
             snd lambda = 0%R /\ (0 < fst lambda)%R).
  { intros lambda. apply symmetric_positive_definite_spectrum.
    - now apply scaled_square.
    - now apply scaled_symmetric.
    - now apply scaled_positive_definite. }
  simpl. repeat split.
  - now apply RandCorr_value.
  - rewrite length_mmul, length_mmul. unfold diag_rows.
    now rewrite length_tabulate.
  - apply rows_mmul.
  - now apply scaled_symmetric.
  - apply normalised_unit_diagonal.
  - now apply Hspec.
  - now apply Hspec.
  - rewrite is_pos_def_square
      by (unfold nrows; simpl; rewrite !length_mmul; unfold diag_rows;
          now rewrite length_tabulate).
    f_equal. apply all_eigenvalues_positive_iff. simpl.
    intros lambda H. left. now apply Hspec.
Qed.

(** ** The global generator around RandCorr *)

Lemma normalised_spd_matrix_state n seed w :
  snd (normalised_spd_matrix n seed w) = w.
Proof.
  unfold normalised_spd_matrix, bind, make_spd_matrix, lift.
  destruct (negb _); [reflexivity|].
  destruct (n <? 0)%Z; [reflexivity|].
  destruct (np_linalg_inv _); [|reflexivity].
  destruct (np_matmul _ _); [|reflexivity].
  destruct (np_matmul _ _); reflexivity.
Qed.

Lemma normalised_spd_matrix_result n seed w w' :
  fst (normalised_spd_matrix n seed w) = fst (normalised_spd_matrix n seed w').
Proof.
  unfold normalised_spd_matrix, bind, make_spd_matrix, lift.
  destruct (negb _); [reflexivity|].
  destruct (n <? 0)%Z; [reflexivity|].
  destruct (np_linalg_inv _); [|reflexivity].
  destruct (np_matmul _ _); [|reflexivity].
  destruct (np_matmul _ _); reflexivity.
Qed.

Lemma np_random_seed_0 w :
  np_random_seed 0 w =
  (Return tt,
   mkWorld (PYTHONHASHSEED w) (tf_global_seed w) (init_genrand 0) (py_random w)).
Proof. reflexivity. Qed.

(** C8, as the code has it.  The matrix [RandCorr] returns is the one lines
    429-434 compute, and they compute the same one from every state of the
    global generator: seeded with 0 as on line 428, with any other constant,
    or left as it was.  The size and the caller's seed alone decide it. *)
Theorem RandCorr_output_depends_on_caller_seed_only (matrixSize seed : Z)
    (w : World) :
  (forall w', fst (normalised_spd_matrix matrixSize seed w') =
              fst (RandCorr matrixSize seed w)) /\
  (forall c w',
     (0 <= c < 2 ^ 32)%Z ->
     fst (bind (np_random_seed c)
               (fun _ => normalised_spd_matrix matrixSize seed) w') =
     fst (RandCorr matrixSize seed w)).
Proof.
  assert (H : forall w', fst (normalised_spd_matrix matrixSize seed w') =
                         fst (RandCorr matrixSize seed w)).
  { intros w'. unfold RandCorr, bind. rewrite np_random_seed_0.
    apply normalised_spd_matrix_result. }
  split; [exact H|].
  intros c w' Hc. unfold bind at 1. unfold np_random_seed.
  replace ((0 <=? c) && (c <? 2 ^ 32))%Z with true
    by (symmetry; apply andb_true_iff; split;
        [apply Z.leb_le | apply Z.ltb_lt]; lia).
  apply H.
Qed.

Lemma RandCorr_state n seed w :
  snd (RandCorr n seed w) =
  mkWorld (PYTHONHASHSEED w) (tf_global_seed w) (init_genrand 0) (py_random w).
Proof.
  unfold RandCorr, bind. rewrite np_random_seed_0.
  pose proof (normalised_spd_matrix_state n seed
    (mkWorld (PYTHONHASHSEED w) (tf_global_seed w) (init_genrand 0)
             (py_random w))) as H.
  destruct (normalised_spd_matrix _ _ _) as [[a|e] w']; exact H.
Qed.

Lemma RandCov_state std seed w :
  snd (RandCov std seed w) = snd (RandCorr (Z.of_nat (length std)) seed w).
Proof.
  unfold RandCov, bind, lift.
  destruct (RandCorr _ _ _) as [[corr|e] w']; [|reflexivity].
  destruct (np_matmul _ _); [|reflexivity].
  destruct (np_matmul _ _); reflexivity.
Qed.

(** C10.  Whatever the arguments and whether it returns or raises, a call
    of [RandCorr], and so a call of [RandCov], leaves the global generator
    seeded with 0 and the rest of the process-wide state as it was: the
    state left behind does not depend on the caller's seed. *)
Theorem RandCorr_leaves_generator_seeded_with_0 (matrixSize seed : Z)
    (std : list R) (w : World) :
  snd (RandCorr matrixSize seed w) =
    mkWorld (PYTHONHASHSEED w) (tf_global_seed w) (init_genrand 0) (py_random w) /\
  snd (RandCov std seed w) =
    mkWorld (PYTHONHASHSEED w) (tf_global_seed w) (init_genrand 0) (py_random w).
Proof.
  split; [apply RandCorr_state|].
  rewrite RandCov_state. apply RandCorr_state.
Qed.

(** ** RandCov *)

(** C6.  For a vector of standard deviations and a seed the generator
    takes, [RandCov] returns diag(std) . C . diag(std), where C is what
    [RandCorr] returns for the length of [std] and the same seed; its
    diagonal is [std] squared, entry by entry. *)
Theorem RandCov_value (std : list R) (seed : Z) (w : World) :
  (0 <= seed < 2 ^ 32)%Z ->
  exists C V,
    fst (RandCorr (Z.of_nat (length std)) seed w) = Return C /\
    fst (RandCov std seed w) = Return V /\
    V = mkMat (length std)
              (mmul (mmul (diag_rows std) (length std) (rows C))
                    (length std) (diag_rows std)) /\
    np_diag2 V = map (fun x => (x ^ 2)%R) std.
Proof.
  intros Hs.
  set (N := length std).
  set (V0 := spd N (init_genrand seed)).
  set (s := inverse_roots (mkMat N V0)).
  set (C := mkMat N (mmul (mmul (diag_rows s) N V0) N (diag_rows s))).
  assert (HC : fst (RandCorr (Z.of_nat N) seed w) = Return C).
  { rewrite RandCorr_value by (assumption || lia).
    now rewrite Nat2Z.id. }
  assert (Hn : ncols C = N) by reflexivity.
  assert (Hsq : square N (rows C)).
  { apply scaled_square, length_inverse_roots, spd_square. }
  assert (Hdiag : np_diag2 C = repeat 1%R N)
    by apply normalised_unit_diagonal.
  clearbody C. clear s V0. subst N.
  exists C.
  exists (mkMat (length std)
            (mmul (mmul (diag_rows std) (length std) (rows C))
                  (length std) (diag_rows std))).
  split; [exact HC|]. split; [|split; [reflexivity|]].
  - unfold RandCov, bind.
    destruct (RandCorr _ _ _) as [r w']. simpl in HC. subst r.
    unfold lift, np_matmul, np_dot, np_diag1, nrows. simpl.
    rewrite (proj1 Hsq), Nat.eqb_refl. simpl.
    replace (length (diag_rows std)) with (length std)
      by (unfold diag_rows; now rewrite length_tabulate).
    now rewrite Hn, Nat.eqb_refl.
  - rewrite np_diag2_square by now apply scaled_square.
    rewrite (map_as_indexed (fun x => (x ^ 2)%R) std 0%R).
    apply map_ext_in. intros i Hi. apply in_seq in Hi.
    rewrite scaled_entry by (assumption || reflexivity || lia).
    assert (Hone : entry (rows C) i i = 1%R).
    { assert (E : nth i (np_diag2 C) 0%R = 1%R).
      { rewrite Hdiag. apply nth_repeat_lt. lia. }
      destruct C as [c rs]. simpl in *. subst c.
      rewrite np_diag2_square in E by apply Hsq.
      now rewrite (nth_map_seq (fun i => entry rs i i)) in E by lia. }
    rewrite Hone. ring.
Qed.

End Correlation.

(** * Concrete libraries and runs *)

(** A generator that counts: seeded with [s], it puts out [s], [s + 1], ...
    (each reduced to 32 bits). *)
Definition counter_step (s : Z) : Z * Z := ((s mod 2 ^ 32)%Z, (s + 1)%Z).

Lemma counter_step_range s : (0 <= fst (counter_step s) < 2 ^ 32)%Z.
Proof. simpl. apply Z.mod_pos_bound. lia. Qed.

Definition counter_generator : BitGenerator :=
  Build_BitGenerator Z (fun s => s) counter_step counter_step_range.

(** A distributions library that takes every argument. *)
Definition accepting_library : DistributionLibrary :=
  Build_DistributionLibrary (fun _ => true) (fun _ => 0%nat)
                            (fun _ _ => Scalar 0).

(** A dataset library whose positive-definite matrix is the identity. *)
Definition identity_dataset : DatasetLibrary counter_generator :=
  Build_DatasetLibrary counter_generator (fun n _ => identity n)
    (fun n _ => identity_square n)
    (fun n _ => identity_symmetric n)
    (fun n _ => identity_positive_definite n).

Definition start : @World counter_generator :=
  @mkWorld counter_generator None None 2024%Z None.

Lemma quarter_turn_orthonormal : orthonormal quarter_turn.
Proof.
  unfold orthonormal, quarter_turn, square. simpl.
  repeat split; try (repeat constructor);
    unfold identity, tabulate, delta; simpl; rows_eq.
Qed.

Lemma inverse_transform_round_trip_witness :
  exists Y,
    transform_data two_samples (Mat quarter_turn) = Return Y /\
    inverse_transform_data Y (Mat quarter_turn) = Return two_samples.
Proof.
  apply inverse_transform_round_trip.
  - repeat constructor.
  - reflexivity.
  - exact quarter_turn_orthonormal.
Defined.

Lemma scale_in_unit_interval_witness :
  exists p,
    fst (draw_parameters (G := counter_generator)
           (weights_of V_MixNormal1) 1 1 0 start) = Return p /\
    Forall (Forall in_unit_interval) (scale p).
Proof.
  eexists. split; [reflexivity|].
  eapply (scale_in_unit_interval (G := counter_generator) V_MixNormal1 1 1 0 start).
  reflexivity.
Defined.

(** The generator's interface alone does not keep the scale away from
    zero: on the counting generator, whose first outputs are small,
    [np.random.sample] returns 0.0 and [MixNormal1] hands a zero scale to
    [Normal].  (Whether numpy's own generator, seeded with an integer, ever
    reaches such a pair of outputs is not decided here.) *)
Lemma scale_entry_can_be_zero :
  exists p cat l,
    fst (draw_parameters (G := counter_generator)
           (weights_of V_MixNormal1) 1 1 0 start) = Return p /\
    scale p = [[0%R]] /\
    ~ Forall (Forall (fun x => (0 < x)%R)) (scale p) /\
    fst (MixNormal1 (G := counter_generator) (T := accepting_library)
           1 1 0 start) =
    Return (Mixture cat [Normal l (Vec [0%R])] true).
Proof.
  eexists. eexists. eexists.
  split; [reflexivity|]. simpl.
  replace (Z.shiftr (1 mod Z.pow_pos 2 32) 6) with 0%Z by reflexivity.
  replace (Z.shiftr (3 mod Z.pow_pos 2 32) 6) with 0%Z by reflexivity.
  unfold Rdiv. rewrite !Rmult_0_l.
  split; [reflexivity|]. split; [|reflexivity].
  intros H. inversion H as [|? ? H1 _]; subst.
  inversion H1; subst. lra.
Qed.

Lemma MixMultiNormal1_indep_unbound_local_witness :
  fst (MixMultiNormal1_indep (G := counter_generator) (T := accepting_library)
         3 4 0 start) = Raise (UnboundLocalError "components") /\
  raised_by_library (UnboundLocalError "components") = false.
Proof.
  apply MixMultiNormal1_indep_unbound_local; lia.
Defined.

Lemma MixMultiNormal1_indep_diverges_witness :
  exists dist,
    fst (MixMultiNormal1 (G := counter_generator) (T := accepting_library)
           3 4 0 start) = Return dist /\
    fst (MixMultiNormal1_indep (G := counter_generator) (T := accepting_library)
           3 4 0 start) = Raise (UnboundLocalError "components").
Proof.
  eexists. split; [reflexivity|].
  eapply MixMultiNormal1_indep_diverges. reflexivity.
Defined.

Lemma RandCorr_correlation_matrix_witness :
  exists C,
    fst (RandCorr (DS := identity_dataset) 2 1 start) = Return C /\
    ncols C = Z.to_nat 2 /\
    square (ncols C) (rows C) /\
    symmetric (rows C) /\
    np_diag2 C = repeat 1%R (ncols C) /\
    (forall lambda, eigenvalue (ncols C) (rows C) lambda ->
                    snd lambda = 0%R /\ (0 < fst lambda)%R) /\
    is_pos_def (Mat C) = Return true.
Proof.
  apply RandCorr_correlation_matrix; lia.
Defined.

Lemma RandCov_value_witness :
  exists C V,
    fst (RandCorr (DS := identity_dataset)
           (Z.of_nat (length [2; 3]%R)) 1 start) = Return C /\
    fst (RandCov (DS := identity_dataset) [2; 3]%R 1 start) = Return V /\
    V = mkMat (length [2; 3]%R)
              (mmul (mmul (diag_rows [2; 3]%R) (length [2; 3]%R) (rows C))
                    (length [2; 3]%R) (diag_rows [2; 3]%R)) /\
    np_diag2 V = map (fun x => (x ^ 2)%R) [2; 3]%R.
Proof.
  apply RandCov_value. lia.
Defined.

(** C8 as stated fails: no generator, dataset library, size, seed or
    constant makes the constant written into the global generator change
    the matrix that comes back. *)
Lemma global_seed_never_changes_RandCorr :
  ~ exists (G : BitGenerator) (DS : DatasetLibrary G) (matrixSize seed c : Z)
           (w : World),
      (0 <= c < 2 ^ 32)%Z /\
      fst (bind (np_random_seed c)
                (fun _ => normalised_spd_matrix matrixSize seed) w) <>
      fst (RandCorr matrixSize seed w).
Proof.
  intros (G & DS & n & seed & c & w & Hc & H). apply H.
  unfold RandCorr, bind, np_random_seed.
  replace ((0 <=? c) && (c <? 2 ^ 32))%Z with true
    by (symmetry; apply andb_true_iff; split;
        [apply Z.leb_le | apply Z.ltb_lt]; lia).
  change ((0 <=? 0) && (0 <? 2 ^ 32))%Z with true. cbv iota beta.
  apply normalised_spd_matrix_result.
Qed.

(** * More on the rotation *)

Definition bad_rotation (rotation : ndarray) : Prop :=
  length (shape rotation) <> 2%nat \/
  nth 0 (shape rotation) 0%nat <> nth 1 (shape rotation) 0%nat.

Lemma good_rotation_is_square_matrix rotation :
  ~ bad_rotation rotation -> exists R, rotation = Mat R /\ nrows R = ncols R.
Proof.
  intros H. destruct rotation as [x|v|R|d1 d2 d3 more data].
  - exfalso. apply H. left. simpl. lia.
  - exfalso. apply H. left. simpl. lia.
  - exists R. split; [reflexivity|].
    destruct (Nat.eq_dec (nrows R) (ncols R)) as [E|N]; [exact E|].
    exfalso. apply H. right. exact N.
  - exfalso. apply H. left. simpl. lia.
Qed.

Lemma bad_rotation_dec rotation : bad_rotation rotation \/ ~ bad_rotation rotation.
Proof.
  unfold bad_rotation.
  destruct (Nat.eq_dec (length (shape rotation)) 2) as [E|N]; [|now left; left].
  destruct (Nat.eq_dec (nth 0 (shape rotation) 0%nat)
                       (nth 1 (shape rotation) 0%nat)) as [E'|N'].
  - right. intros [H|H]; contradiction.
  - left. now right.
Qed.

Lemma np_dot_outcomes (X R : matrix) :
  (ncols X <> nrows R -> np_dot X R = Raise shapes_not_aligned) /\
  (ncols X = nrows R ->
   exists Y, np_dot X R = Return Y /\
             rows Y = mmul (rows X) (ncols R) (rows R) /\
             nrows Y = nrows X /\ ncols Y = ncols R /\ well_formed Y).
Proof.
  unfold np_dot. split; intros H.
  - destruct (Nat.eqb_spec (ncols X) (nrows R)); [contradiction | reflexivity].
  - rewrite H, Nat.eqb_refl. eexists. split; [reflexivity|].
    unfold nrows, well_formed. simpl.
    repeat split; [apply length_mmul | apply rows_mmul].
Qed.

(** How [transform_data] ends: with an [Exception] of its own exactly when
    the rotation is not 2-D or not square; with numpy's shape error when
    the rotation is a square matrix whose size is not the column count of
    the data; and otherwise with a well-formed matrix of as many rows as
    the data and as many columns as the rotation. *)
Theorem transform_data_outcomes (X : matrix) (rotation : ndarray) :
  ((exists msg, transform_data X rotation = Raise (Exception msg)) <->
   bad_rotation rotation) /\
  (forall R, rotation = Mat R -> nrows R = ncols R ->
     (ncols X <> ncols R ->
      transform_data X rotation = Raise shapes_not_aligned) /\
     (ncols X = ncols R ->
      exists Y, transform_data X rotation = Return Y /\
                nrows Y = nrows X /\ ncols Y = ncols R /\ well_formed Y)).
Proof.
  split.
  - split.
    + intros [msg Hmsg]. destruct (bad_rotation_dec rotation) as [B|G]; [exact B|].
      exfalso. destruct (good_rotation_is_square_matrix rotation G) as (R & -> & Hsq).
      rewrite transform_data_2d_square in Hmsg by assumption.
      unfold np_dot in Hmsg. destruct (Nat.eqb _ _); discriminate.
    + intros B. now apply transform_data_validation.
  - intros R -> Hsq. rewrite transform_data_2d_square by assumption.
    destruct (np_dot_outcomes X R) as [Hbad Hgood]. split; intros H.
    + apply Hbad. congruence.
    + destruct Hgood as (Y & HY & _ & Hr & Hc & Hwf); [congruence|].
      exists Y. auto.
Qed.

(** The same for [inverse_transform_data]. *)
Theorem inverse_transform_data_outcomes (X : matrix) (rotation : ndarray) :
  ((exists msg, inverse_transform_data X rotation = Raise (Exception msg)) <->
   bad_rotation rotation) /\
  (forall R, rotation = Mat R -> nrows R = ncols R ->
     (ncols X <> ncols R ->
      inverse_transform_data X rotation = Raise shapes_not_aligned) /\
     (ncols X = ncols R ->
      exists Y, inverse_transform_data X rotation = Return Y /\
                nrows Y = nrows X /\ ncols Y = ncols R /\ well_formed Y)).
Proof.
  assert (Ht : forall R, nrows (np_transpose R) = ncols R).
  { intros R. unfold np_transpose, nrows, transpose. simpl.
    now rewrite length_map, length_seq. }
  split.
  - split.
    + intros [msg Hmsg]. destruct (bad_rotation_dec rotation) as [B|G]; [exact B|].
      exfalso. destruct (good_rotation_is_square_matrix rotation G) as (R & -> & Hsq).
      rewrite inverse_transform_data_2d_square in Hmsg by assumption.
      unfold np_dot in Hmsg. destruct (Nat.eqb _ _); discriminate.
    + intros B. now apply (transform_data_validation X).
  - intros R -> Hsq. rewrite inverse_transform_data_2d_square by assumption.
    destruct (np_dot_outcomes X (np_transpose R)) as [Hbad Hgood].
    rewrite Ht in Hbad, Hgood. split; intros H.
    + now apply Hbad.
    + destruct (Hgood H) as (Y & HY & _ & Hr & Hc & Hwf).
      exists Y. repeat split; auto. rewrite Hc. simpl. exact Hsq.
Qed.

Lemma rows_transpose c A : Forall (fun r => length r = length A) (transpose c A).
Proof. rewrite transpose_tabulate. apply rows_tabulate. Qed.

(** The round trip the other way: the inverse transform first, then the
    transform, gives the data back too. *)
Theorem transform_inverse_round_trip (X R : matrix) :
  well_formed X -> ncols X = ncols R -> orthonormal R ->
  exists Y,
    inverse_transform_data X (Mat R) = Return Y /\
    transform_data Y (Mat R) = Return X.
Proof.
  intros HX HD ([Hl Hr] & _ & HRtR).
  assert (Hsq : nrows R = ncols R) by exact Hl.
  exists (mkMat (ncols R)
            (mmul (rows X) (ncols R) (transpose (ncols R) (rows R)))).
  rewrite transform_data_2d_square, inverse_transform_data_2d_square
    by assumption.
  unfold np_dot, np_transpose, nrows; simpl. split.
  - unfold transpose at 1. rewrite length_map, length_seq, HD, Nat.eqb_refl.
    now rewrite Hl.
  - rewrite Hl, Nat.eqb_refl.
    rewrite (mmul_assoc (rows X) (ncols R) (transpose (ncols R) (rows R)))
      by (pose proof (rows_transpose (ncols R) (rows R)) as H;
          now rewrite Hl in H).
    rewrite HRtR.
    rewrite mmul_identity_r by (unfold well_formed in HX; now rewrite <- HD).
    destruct X; simpl in *. now subst.
Qed.

Lemma row_rotation_preserves_dot n R x y :
  square n R -> mmul R n (transpose n R) = identity n ->
  length y = n ->
  dot (map (fun j => dot x (col j R)) (seq 0 n))
      (map (fun j => dot y (col j R)) (seq 0 n)) = dot x y.
Proof.
  intros [Hl Hr] HRRt Hy.
  rewrite dot_row_matrix by assumption.
  rewrite <- mv_transpose.
  rewrite <- (mv_mmul R n (transpose n R))
    by (pose proof (rows_transpose n R) as H; now rewrite Hl in H).
  now rewrite HRRt, mv_identity.
Qed.

(** A rotation keeps the geometry of the samples: the rows of the
    transformed data have the same dot products, pair by pair (and so the
    same lengths), as the rows of the data. *)
Theorem transform_data_preserves_dot_products (X R Y : matrix) (i j : nat) :
  well_formed X -> orthonormal R ->
  transform_data X (Mat R) = Return Y ->
  dot (nth i (rows Y) []) (nth j (rows Y) []) =
  dot (nth i (rows X) []) (nth j (rows X) []).
Proof.
  intros HX ([Hl Hr] & HRRt & _) HY.
  rewrite transform_data_2d_square in HY by exact Hl.
  unfold np_dot in HY.
  destruct (Nat.eqb_spec (ncols X) (nrows R)) as [HD|]; [|discriminate].
  injection HY as <-. simpl. unfold nrows in HD. rewrite Hl in HD.
  unfold mmul.
  set (f := fun a => map (fun k => dot a (col k (rows R))) (seq 0 (ncols R))).
  destruct (Nat.lt_ge_cases i (length (rows X))) as [Hi|Hi].
  2:{ rewrite (nth_overflow (map f (rows X)) [] (n := i))
        by (rewrite length_map; lia).
      rewrite (nth_overflow (rows X) [] Hi). reflexivity. }
  destruct (Nat.lt_ge_cases j (length (rows X))) as [Hj|Hj].
  2:{ rewrite (nth_overflow (map f (rows X)) [] (n := j))
        by (rewrite length_map; lia).
      rewrite (nth_overflow (rows X) [] Hj). now rewrite !dot_nil_r. }
  rewrite !(nth_indep (map f (rows X)) [] (f [])) by (rewrite length_map; lia).
  rewrite !map_nth. unfold f.
  apply row_rotation_preserves_dot; [now split | assumption |].
  unfold well_formed in HX. rewrite Forall_forall in HX.
  rewrite HX by (apply nth_In; lia). exact HD.
Qed.

Lemma transform_data_returns_inv (X R Y : matrix) :
  transform_data X (Mat R) = Return Y ->
  nrows R = ncols R /\ ncols X = ncols R /\
  Y = mkMat (ncols R) (mmul (rows X) (ncols R) (rows R)).
Proof.
  unfold transform_data. simpl.
  destruct (Nat.eqb_spec (nrows R) (ncols R)) as [E|N]; simpl; [|discriminate].
  unfold np_dot.
  destruct (Nat.eqb_spec (ncols X) (nrows R)) as [E'|N']; [|discriminate].
  intros [= <-]. repeat split; congruence.
Qed.

(** Two rotations one after the other are one rotation by their product. *)
Theorem transform_data_composes (X R1 R2 Y Z R12 : matrix) :
  well_formed R1 ->
  transform_data X (Mat R1) = Return Y ->
  transform_data Y (Mat R2) = Return Z ->
  np_dot R1 R2 = Return R12 ->
  transform_data X (Mat R12) = Return Z.
Proof.
  intros HW H1 H2 H12.
  apply transform_data_returns_inv in H1 as (S1 & D1 & ->).
  apply transform_data_returns_inv in H2 as (S2 & D2 & ->).
  simpl in D2. unfold np_dot in H12.
  destruct (Nat.eqb_spec (ncols R1) (nrows R2)) as [E|]; [|discriminate].
  injection H12 as <-.
  rewrite transform_data_2d_square
    by (unfold nrows; simpl; rewrite length_mmul; fold (nrows R1); congruence).
  unfold np_dot, nrows. simpl.
  rewrite length_mmul. fold (nrows R1).
  rewrite D1, S1, Nat.eqb_refl. f_equal. f_equal.
  rewrite <- D2. symmetry. apply mmul_assoc. exact HW.
Qed.

(** * More on is_pos_def *)

Lemma all_eigenvalues_positive_spd n A :
  square n A -> symmetric A -> positive_definite n A ->
  all_eigenvalues_positive (mkMat n A) = true.
Proof.
  intros Hsq Hs Hpd. apply all_eigenvalues_positive_iff. simpl.
  intros lambda H. left.
  now apply (symmetric_positive_definite_spectrum n A lambda).
Qed.

Lemma vadd_vscale_zeros c u n :
  length u = n -> vadd u (vscale c (repeat 0%R n)) = u.
Proof.
  intros <-. induction u as [|a u IH]; simpl; [reflexivity|].
  rewrite IH. f_equal. ring.
Qed.

Lemma vadd_zero_vscale c u n :
  length u = n -> vadd (vscale 0 u) (vscale c (repeat 0%R n)) = repeat 0%R n.
Proof.
  intros <-. induction u as [|a u IH]; simpl; [reflexivity|].
  rewrite IH. f_equal. ring.
Qed.

Lemma dot_repeat_0_r r n : dot r (repeat 0%R n) = 0%R.
Proof.
  revert n; induction r as [|a r IH]; intros [|n]; simpl; try reflexivity.
  rewrite IH. ring.
Qed.

Lemma mv_zeros A n : mv A (repeat 0%R n) = repeat 0%R (length A).
Proof.
  induction A as [|r A IH]; simpl; [reflexivity|].
  now rewrite IH, dot_repeat_0_r.
Qed.

(** A real eigenpair is an eigenpair. *)
Lemma real_eigenvalue n A a mu :
  length A = n -> length a = n -> nonzero a -> mv A a = vscale mu a ->
  eigenvalue n A (mu, 0%R).
Proof.
  intros HA Ha Hnz E. exists a, (repeat 0%R n). simpl.
  split; [exact Ha|]. split; [apply repeat_length|].
  split; [now left|]. split.
  - rewrite E. symmetry. apply vadd_vscale_zeros.
    now rewrite length_vscale.
  - rewrite mv_zeros, HA. symmetry. now apply vadd_zero_vscale.
Qed.

(** [is_pos_def] says True of every symmetric positive-definite matrix,
    and False of every square matrix that sends some non-zero vector to a
    multiple of itself that is zero or negative (a singular matrix, for
    one). *)
Theorem is_pos_def_by_eigenvectors (n : nat) (A : list (list R)) :
  square n A ->
  (symmetric A -> positive_definite n A ->
   is_pos_def (Mat (mkMat n A)) = Return true) /\
  (forall x mu, length x = n -> nonzero x -> mv A x = vscale mu x ->
                (mu <= 0)%R ->
   is_pos_def (Mat (mkMat n A)) = Return false).
Proof.
  intros Hsq.
  rewrite is_pos_def_square by (unfold nrows; simpl; apply Hsq). split.
  - intros Hs Hpd. f_equal. now apply all_eigenvalues_positive_spd.
  - intros x mu Hx Hnz E Hmu. f_equal.
    destruct (all_eigenvalues_positive (mkMat n A)) eqn:P; [|reflexivity].
    pose proof (proj1 (all_eigenvalues_positive_iff _) P) as Q. simpl in Q.
    assert (Ev : eigenvalue n A (mu, 0%R))
      by (apply (real_eigenvalue n A x); auto; apply Hsq).
    destruct (Q _ Ev) as [H | [_ H]]; simpl in H; lra.
Qed.

Lemma mv_basis n A i :
  Forall (fun r => length r = n) A -> (i < n)%nat ->
  mv A (map (fun k => delta k i) (seq 0 n)) = col i A.
Proof.
  intros Hr Hi. unfold mv, col. apply map_ext_in. intros r Hin.
  rewrite Forall_forall in Hr. specialize (Hr r Hin).
  rewrite <- Hr. apply dot_basis. lia.
Qed.

Lemma diag_rows_square v : square (length v) (diag_rows v).
Proof. unfold diag_rows. apply square_tabulate. Qed.

Lemma diag_rows_symmetric v : symmetric (diag_rows v).
Proof.
  apply (symmetric_from_entries (length v)); [apply diag_rows_square|].
  intros i j Hi Hj. unfold diag_rows. rewrite !entry_tabulate by assumption.
  destruct (Nat.eq_dec i j) as [->|N]; [reflexivity|].
  unfold delta. destruct (Nat.eqb_spec i j), (Nat.eqb_spec j i);
    try congruence. ring.
Qed.

Lemma dot_vmul_nonneg v x :
  Forall (fun a => (0 < a)%R) v -> (0 <= dot x (vmul v x))%R.
Proof.
  intros Hv. revert x. induction Hv as [|a v Ha Hv IH]; intros [|b x]; simpl;
    try lra.
  specialize (IH x). nra.
Qed.

Lemma dot_vmul_pos v x :
  Forall (fun a => (0 < a)%R) v -> length x = length v -> nonzero x ->
  (0 < dot x (vmul v x))%R.
Proof.
  intros Hv E Hx. revert v Hv E. unfold nonzero in Hx.
  induction Hx as [b x Hb | b x _ IH]; intros [|a v] Hv E; simpl in *;
    try discriminate; inversion Hv; subst.
  - pose proof (dot_vmul_nonneg v x H2).
    assert (0 < b * b)%R by nra. nra.
  - assert (0 < dot x (vmul v x))%R by (apply IH; [assumption | congruence]).
    assert (0 <= b * b)%R by nra. nra.
Qed.

Lemma diag_rows_positive_definite v :
  Forall (fun a => (0 < a)%R) v -> positive_definite (length v) (diag_rows v).
Proof.
  intros Hv x Hx Hnz. rewrite mv_diag_rows by assumption.
  now apply dot_vmul_pos.
Qed.

Lemma col_diag_rows_scaled v i :
  (i < length v)%nat ->
  col i (diag_rows v) =
  vscale (nth i v 0%R) (map (fun k => delta k i) (seq 0 (length v))).
Proof.
  intros Hi. rewrite col_diag_rows by assumption.
  unfold vscale. rewrite map_map. apply map_ext. intros k.
  destruct (delta_cases k i) as [-> | [-> ->]]; ring.
Qed.

(** On a diagonal matrix [is_pos_def] says True exactly when every entry
    of the diagonal is positive; of the empty matrix it says True. *)
Theorem is_pos_def_diagonal (v : list R) :
  is_pos_def (Mat (np_diag1 v)) = Return true <-> Forall (fun a => (0 < a)%R) v.
Proof.
  unfold np_diag1. split.
  - intros H.
    rewrite is_pos_def_square in H
      by (unfold nrows; simpl; apply diag_rows_square).
    injection H as H.
    pose proof (proj1 (all_eigenvalues_positive_iff _) H) as P. simpl in P.
    clear H. rename P into H.
    apply Forall_forall. intros a Ha.
    destruct (In_nth v a 0%R Ha) as (i & Hi & <-).
    assert (E : eigenvalue (length v) (diag_rows v) (nth i v 0%R, 0%R)).
    { apply (real_eigenvalue (length v) (diag_rows v)
               (map (fun k => delta k i) (seq 0 (length v)))).
      - apply diag_rows_square.
      - now rewrite length_map, length_seq.
      - now apply basis_nonzero.
      - rewrite mv_basis by (apply diag_rows_square || assumption).
        now apply col_diag_rows_scaled. }
    destruct (H _ E) as [P | [_ P]]; simpl in P; [exact P | lra].
  - intros Hv.
    rewrite is_pos_def_square
      by (unfold nrows; simpl; apply diag_rows_square).
    f_equal. apply all_eigenvalues_positive_spd.
    + apply diag_rows_square.
    + apply diag_rows_symmetric.
    + now apply diag_rows_positive_definite.
Qed.

(** * More on the seeds and the constructors *)

Section MoreConstructors.

Context {G : BitGenerator} {T : DistributionLibrary}.


Lemma reset_random_seeds_valid seed w :
  (0 <= seed < 2 ^ 32)%Z ->
  reset_random_seeds seed w =
  (Return tt,
   mkWorld (Some (str seed)) (Some seed) (init_genrand seed) (Some seed)).
Proof.
  intros H. unfold reset_random_seeds, bind, np_random_seed.
  replace ((0 <=? seed) && (seed <? 2 ^ 32))%Z with true
    by (symmetry; apply andb_true_iff; split;
        [apply Z.leb_le | apply Z.ltb_lt]; lia).
  reflexivity.
Qed.




(** ** Arguments the constructors refuse *)




(** [MixMultiNormal1_indep] returns a distribution for no arguments at
    all: whatever it is given, it raises. *)
Theorem MixMultiNormal1_indep_never_returns (n d seed : Z) (w : World) :
  raises (fst (MixMultiNormal1_indep n d seed w)).
Proof.
  unfold MixMultiNormal1_indep, bind.
  destruct (draw_parameters Shared n d seed w) as [[p|e] w0]; [|exact I].
  destruct (range n) as [|x xs].
  - simpl. unfold tfd_Categorical, construct.
    destruct (accepts (Categorical (probs p))); exact I.
  - rewrite for_each_unbound. exact I.
Qed.

(** ** The parameter arrays in detail *)

Lemma random_vector_length k s : length (fst (random_vector k s)) = k.
Proof.
  revert s; induction k as [|k IH]; intros s; simpl; [reflexivity|].
  destruct (random_sample s) as [x s1]. specialize (IH s1).
  destruct (random_vector k s1) as [xs s2]. simpl in *. now rewrite IH.
Qed.

Lemma random_rows_shape n d s :
  length (fst (random_rows n d s)) = n /\
  Forall (fun r => length r = d) (fst (random_rows n d s)).
Proof.
  revert s; induction n as [|n IH]; intros s; simpl; [now split|].
  pose proof (random_vector_length d s) as Hrow.
  destruct (random_vector d s) as [row s1]. specialize (IH s1).
  destruct (random_rows n d s1) as [rs s2]. simpl in *.
  destruct IH as [IH1 IH2]. split; [now rewrite IH1 | now constructor].
Qed.

Lemma np_random_sample2_shape n d w rs w' :
  np_random_sample2 n d w = (Return rs, w') ->
  length rs = Z.to_nat n /\ Forall (fun r => length r = Z.to_nat d) rs.
Proof.
  unfold np_random_sample2.
  destruct ((n <? 0) || (d <? 0))%Z; [discriminate|].
  pose proof (random_rows_shape (Z.to_nat n) (Z.to_nat d) (np_random w)) as H.
  destruct (random_rows _ _ _) as [rows0 s]. simpl in H.
  now intros [= <- _].
Qed.

Lemma np_random_sample1_shape_range n w v w' :
  np_random_sample1 n w = (Return v, w') ->
  length v = Z.to_nat n /\ Forall in_unit_interval v.
Proof.
  unfold np_random_sample1.
  destruct (n <? 0)%Z; [discriminate|].
  pose proof (random_vector_length (Z.to_nat n) (np_random w)) as H.
  pose proof (random_vector_range (Z.to_nat n) (np_random w)) as H'.
  destruct (random_vector _ _) as [v0 s]. simpl in H, H'.
  now intros [= <- _].
Qed.

Lemma times10_shape_range rs n d :
  length rs = n -> Forall (fun r => length r = d) rs ->
  Forall (Forall in_unit_interval) rs ->
  length (times10 rs) = n /\
  Forall (fun r => length r = d) (times10 rs) /\
  Forall (Forall (fun x => (0 <= x < 10)%R)) (times10 rs).
Proof.
  intros Hn Hd Hr. unfold times10. split; [now rewrite length_map|].
  split.
  - apply Forall_map. eapply Forall_impl; [|exact Hd].
    intros r Hlen. now rewrite length_map.
  - apply Forall_map. eapply Forall_impl; [|exact Hr].
    intros r Hrow. apply Forall_map. eapply Forall_impl; [|exact Hrow].
    unfold in_unit_interval. intros x Hx. simpl. lra.
Qed.

(** The arrays a constructor draws: [loc] and [scale] have one row per
    component and one column per dimension, the entries of [loc] lie in
    [0, 10); the weights are a (dimensions x components) array for the
    per-dimension constructors and a vector of one weight per component for
    the others, with entries in [0, 1). *)
Theorem parameters_shapes_and_ranges (wt : weighting) (n d seed : Z)
    (w : World) (p : parameters) :
  fst (draw_parameters wt n d seed w) = Return p ->
  length (loc p) = Z.to_nat n /\
  Forall (fun r => length r = Z.to_nat d) (loc p) /\
  Forall (Forall (fun x => (0 <= x < 10)%R)) (loc p) /\
  length (scale p) = Z.to_nat n /\
  Forall (fun r => length r = Z.to_nat d) (scale p) /\
  match wt with
  | PerDimension =>
      exists rs, probs p = Mat (mkMat (Z.to_nat n) rs) /\
                 length rs = Z.to_nat d /\
                 Forall (fun r => length r = Z.to_nat n) rs /\
                 Forall (Forall in_unit_interval) rs
  | Shared =>
      exists v, probs p = Vec v /\ length v = Z.to_nat n /\
                Forall in_unit_interval v
  end.
Proof.
  unfold draw_parameters, bind.
  destruct (reset_random_seeds seed w) as [[[]|e] w0]; [|discriminate].
  destruct (np_random_sample2 n d w0) as [[loc0|e] w1] eqn:E1; [|discriminate].
  destruct (np_random_sample2 n d w1) as [[sc|e] w2] eqn:E2; [|discriminate].
  pose proof (np_random_sample2_shape _ _ _ _ _ E1) as [L1 L2].
  pose proof (np_random_sample2_range _ _ _ _ _ E1) as L3.
  pose proof (np_random_sample2_shape _ _ _ _ _ E2) as [S1 S2].
  destruct (times10_shape_range loc0 _ _ L1 L2 L3) as (T1 & T2 & T3).
  destruct wt.
  - destruct (np_random_sample2 d n w2) as [[pr|e] w3] eqn:E3; [|discriminate].
    pose proof (np_random_sample2_shape _ _ _ _ _ E3) as [P1 P2].
    pose proof (np_random_sample2_range _ _ _ _ _ E3) as P3.
    simpl. intros [= <-]. simpl. repeat split; auto.
    exists pr. auto.
  - destruct (np_random_sample1 n w2) as [[pr|e] w3] eqn:E3; [|discriminate].
    pose proof (np_random_sample1_shape_range _ _ _ _ E3) as [P1 P2].
    simpl. intros [= <-]. simpl. repeat split; auto.
    exists pr. auto.
Qed.

(** All eight constructors draw the same [loc] and [scale] for the same
    arguments, from whatever states they start: the weights, whose shape
    differs, are drawn last. *)
Theorem loc_and_scale_shared_by_all_constructors (v v' : variant)
    (n d seed : Z) (w w' : World) (p p' : parameters) :
  fst (draw_parameters (weights_of v) n d seed w) = Return p ->
  fst (draw_parameters (weights_of v') n d seed w') = Return p' ->
  loc p = loc p' /\ scale p = scale p'.
Proof.
  unfold draw_parameters, bind.
  destruct (reset_random_seeds_reproducible seed w w') as [E1 E2].
  destruct (reset_random_seeds seed w) as [[[]|e] w0],
           (reset_random_seeds seed w') as [[[]|e'] w0'];
    simpl in *; try discriminate.
  rewrite <- (E2 tt eq_refl).
  destruct (np_random_sample2 n d w0) as [[loc0|e] w1]; [|discriminate].
  destruct (np_random_sample2 n d w1) as [[sc|e] w2]; [|discriminate].
  intros H H'.
  assert (A : loc p = times10 loc0 /\ scale p = sc).
  { destruct (weights_of v).
    - destruct (np_random_sample2 d n w2) as [[pr|e] w3]; [|discriminate].
      simpl in H. now injection H as <-.
    - destruct (np_random_sample1 n w2) as [[pr|e] w3]; [|discriminate].
      simpl in H. now injection H as <-. }
  assert (B : loc p' = times10 loc0 /\ scale p' = sc).
  { destruct (weights_of v').
    - destruct (np_random_sample2 d n w2) as [[pr|e] w3]; [|discriminate].
      simpl in H'. now injection H' as <-.
    - destruct (np_random_sample1 n w2) as [[pr|e] w3]; [|discriminate].
      simpl in H'. now injection H' as <-. }
  destruct A as [-> ->], B as [-> ->]. now split.
Qed.

(** ** What the constructors build *)

Lemma for_each_append_MultivariateNormalDiag p xs cs w r w' :
  for_each xs (append_MultivariateNormalDiag p) (Some cs) w = (Return r, w') ->
  r = Some (cs ++ map (fun i => MultivariateNormalDiag
                                  (Vec (nth i (loc p) []))
                                  (Vec (nth i (scale p) []))) xs).
Proof.
  revert cs w. induction xs as [|x xs IH]; intros cs w; simpl.
  - unfold ret. intros [= <- _]. now rewrite app_nil_r.
  - unfold bind at 1. unfold append_MultivariateNormalDiag at 1.
    unfold bind, load, ret, tfd_MultivariateNormalDiag, construct.
    destruct (accepts _); [|discriminate].
    intros H. apply IH in H. rewrite H. now rewrite <- app_assoc.
Qed.

Lemma for_each_append_Normal p xs cs w r w' :
  for_each xs (append_Normal p) (Some cs) w = (Return r, w') ->
  r = Some (cs ++ map (fun i => Normal (Vec (nth i (loc p) []))
                                       (Vec (nth i (scale p) []))) xs).
Proof.
  revert cs w. induction xs as [|x xs IH]; intros cs w; simpl.
  - unfold ret. intros [= <- _]. now rewrite app_nil_r.
  - unfold bind at 1. unfold append_Normal at 1.
    unfold bind, load, ret, tfd_Normal, construct.
    destruct (accepts _); [|discriminate].
    intros H. apply IH in H. rewrite H. now rewrite <- app_assoc.
Qed.

(** The distribution [MixtureGaussian] returns is a [Mixture], argument
    checks on, over the categorical of the weights drawn, with one
    [MultivariateNormalDiag] per component, in order: the i-th has row i of
    [loc] for location and row i of [scale] for diagonal. *)
Theorem MixtureGaussian_components (ncomp ndims seed : Z) (w : World)
    (dist : Distribution) :
  fst (MixtureGaussian ncomp ndims seed w) = Return dist ->
  exists p,
    fst (draw_parameters Shared ncomp ndims seed w) = Return p /\
    dist = Mixture (Categorical (probs p))
             (map (fun i => MultivariateNormalDiag
                              (Vec (nth i (loc p) []))
                              (Vec (nth i (scale p) [])))
                  (range ncomp))
             true.
Proof.
  unfold MixtureGaussian, MixMultiNormal1, bind.
  destruct (draw_parameters Shared ncomp ndims seed w) as [[p|e] w0];
    [|discriminate].
  destruct (for_each _ _ _ w0) as [[r|e] w1] eqn:E; [|discriminate].
  apply for_each_append_MultivariateNormalDiag in E. subst r. simpl.
  unfold tfd_Categorical, tfd_Mixture, construct, load, ret.
  destruct (accepts (Categorical _)); [|discriminate].
  destruct (accepts (Mixture _ _ _)); [|discriminate].
  simpl. intros [= <-]. exists p. split; reflexivity.
Qed.

(** The distribution [MixNormal1] returns: a [Mixture], argument checks
    on, over the categorical of the (dimensions x components) weights, with
    one [Normal] per component, the i-th over row i of [loc] and of
    [scale]; [MixNormal1_indep] returns the same inside [Independent]. *)
Theorem MixNormal1_components (n d seed : Z) (w : World) (dist : Distribution) :
  fst (MixNormal1 n d seed w) = Return dist ->
  exists p,
    fst (draw_parameters PerDimension n d seed w) = Return p /\
    dist = Mixture (Categorical (probs p))
             (map (fun i => Normal (Vec (nth i (loc p) []))
                                   (Vec (nth i (scale p) [])))
                  (range n))
             true /\
    fst (MixNormal1_indep n d seed w) = Return (Independent dist 0).
Proof.
  unfold MixNormal1, MixNormal1_indep, bind.
  destruct (draw_parameters PerDimension n d seed w) as [[p|e] w0];
    [|discriminate].
  destruct (for_each _ _ _ w0) as [[r|e] w1] eqn:E; [|discriminate].
  apply for_each_append_Normal in E. subst r. simpl.
  unfold tfd_Categorical, tfd_Mixture, tfd_Independent, construct, load, ret.
  destruct (accepts (Categorical _)); [|discriminate].
  destruct (accepts (Mixture _ _ _)); [|discriminate].
  simpl. intros [= <-]. exists p. repeat split; reflexivity.
Qed.

(** ** What a constructor call leaves in the process-wide state *)

Definition same_seeds (w w' : World) : Prop :=
  PYTHONHASHSEED w' = PYTHONHASHSEED w /\
  tf_global_seed w' = tf_global_seed w /\
  py_random w' = py_random w.

(** A computation that touches numpy's global generator at most. *)
Definition keeps_seeds {A} (c : M A) : Prop :=
  forall w, same_seeds w (snd (c w)).

Lemma same_seeds_refl w : same_seeds w w.
Proof. now repeat split. Qed.

Lemma keeps_seeds_bind {A B} (c : M A) (k : A -> M B) :
  keeps_seeds c -> (forall a, keeps_seeds (k a)) -> keeps_seeds (bind c k).
Proof.
  intros Hc Hk w. unfold bind. specialize (Hc w).
  destruct (c w) as [[a|e] w1]; simpl in *; [|exact Hc].
  specialize (Hk a w1). destruct Hc as (A1 & A2 & A3), Hk as (B1 & B2 & B3).
  repeat split; congruence.
Qed.

Lemma keeps_seeds_ret {A} (a : A) : keeps_seeds (ret a).
Proof. intros w. apply same_seeds_refl. Qed.

Lemma keeps_seeds_load {A} name (v : option A) : keeps_seeds (load name v).
Proof. intros w. destruct v; apply same_seeds_refl. Qed.

Lemma keeps_seeds_construct dist : keeps_seeds (construct dist).
Proof.
  intros w. unfold construct. destruct (accepts dist); apply same_seeds_refl.
Qed.

Lemma keeps_seeds_tfd_Independent dist k : keeps_seeds (tfd_Independent dist k).
Proof.
  intros w. unfold tfd_Independent.
  destruct (Nat.leb k (batch_ndims dist)); apply same_seeds_refl.
Qed.

Lemma keeps_seeds_np_random_sample2 n d : keeps_seeds (np_random_sample2 n d).
Proof.
  intros w. unfold np_random_sample2.
  destruct ((n <? 0) || (d <? 0))%Z; [apply same_seeds_refl|].
  destruct (random_rows _ _ _). now repeat split.
Qed.

Lemma keeps_seeds_np_random_sample1 n : keeps_seeds (np_random_sample1 n).
Proof.
  intros w. unfold np_random_sample1.
  destruct (n <? 0)%Z; [apply same_seeds_refl|].
  destruct (random_vector _ _). now repeat split.
Qed.

Lemma keeps_seeds_for_each {A St} (xs : list A) (body : A -> St -> M St) s :
  (forall x s', keeps_seeds (body x s')) -> keeps_seeds (for_each xs body s).
Proof.
  intros Hb. revert s. induction xs as [|x xs IH]; intros s; simpl.
  - apply keeps_seeds_ret.
  - apply keeps_seeds_bind; [apply Hb | exact IH].
Qed.

Ltac keeps_seeds_tac :=
  repeat first
    [ apply keeps_seeds_ret
    | apply keeps_seeds_load
    | apply keeps_seeds_construct
    | apply keeps_seeds_tfd_Independent
    | apply keeps_seeds_np_random_sample2
    | apply keeps_seeds_np_random_sample1
    | apply keeps_seeds_for_each; intros
    | apply keeps_seeds_bind; [|intros] ].

Definition seeds_set (seed : Z) (w : World) : Prop :=
  PYTHONHASHSEED w = Some (str seed) /\
  tf_global_seed w = Some seed /\
  py_random w = Some seed.

Lemma seeds_set_bind {A B} (c : M A) (k : A -> M B) seed w :
  seeds_set seed (snd (c w)) -> (forall a, keeps_seeds (k a)) ->
  seeds_set seed (snd (bind c k w)).
Proof.
  intros Hc Hk. unfold bind.
  destruct (c w) as [[a|e] w1]; simpl in *; [|exact Hc].
  destruct (Hk a w1) as (B1 & B2 & B3), Hc as (A1 & A2 & A3).
  repeat split; congruence.
Qed.

Lemma draw_parameters_seeds wt n d seed w :
  (0 <= seed < 2 ^ 32)%Z ->
  seeds_set seed (snd (draw_parameters wt n d seed w)).
Proof.
  intros Hs. unfold draw_parameters. apply seeds_set_bind.
  - rewrite reset_random_seeds_valid by assumption. now repeat split.
  - intros _. destruct wt; keeps_seeds_tac.
Qed.

Lemma constructor_continuation_keeps_seeds v n d seed :
  exists assemble,
    constructor v n d seed =
    bind (draw_parameters (weights_of v) n d seed) assemble /\
    forall p, keeps_seeds (assemble p).
Proof.
  destruct v; eexists; (split; [reflexivity|]); intros p;
    unfold tfd_Categorical, tfd_Normal, tfd_MultivariateNormalDiag,
      tfd_Mixture, tfd_MixtureSameFamily;
    keeps_seeds_tac;
    unfold append_Normal, append_MultivariateNormalDiag,
      tfd_Normal, tfd_MultivariateNormalDiag;
    keeps_seeds_tac.
Qed.

(** A constructor called with a seed numpy takes leaves the hash seed, the
    framework's global seed and Python's generator set from that seed,
    whether it returns or raises later on: the process-wide state is
    changed for the caller too. *)
Theorem constructors_leave_seeds_set (v : variant) (n d seed : Z) (w : World) :
  (0 <= seed < 2 ^ 32)%Z ->
  PYTHONHASHSEED (snd (constructor v n d seed w)) = Some (str seed) /\
  tf_global_seed (snd (constructor v n d seed w)) = Some seed /\
  py_random (snd (constructor v n d seed w)) = Some seed.
Proof.
  intros Hs.
  destruct (constructor_continuation_keeps_seeds v n d seed) as (k & -> & Hk).
  apply (seeds_set_bind _ k seed w); [|exact Hk].
  now apply draw_parameters_seeds.
Qed.

End MoreConstructors.

(** A square matrix with a column of zeros is singular, and [is_pos_def]
    says False of it. *)
Lemma is_pos_def_zero_column n A i :
  square n A -> (i < n)%nat ->
  (forall k, (k < n)%nat -> entry A k i = 0%R) ->
  is_pos_def (Mat (mkMat n A)) = Return false.
Proof.
  intros Hsq Hi Hcol.
  rewrite is_pos_def_square by (unfold nrows; simpl; apply Hsq).
  f_equal.
  destruct (all_eigenvalues_positive (mkMat n A)) eqn:P; [|reflexivity].
  pose proof (proj1 (all_eigenvalues_positive_iff _) P) as Q. simpl in Q.
  assert (Ev : eigenvalue n A (0, 0)%R).
  { apply (real_eigenvalue n A (map (fun k => delta k i) (seq 0 n))).
    - apply Hsq.
    - now rewrite length_map, length_seq.
    - now apply basis_nonzero.
    - rewrite mv_basis by (apply Hsq || assumption).
      rewrite col_as_entries, (proj1 Hsq).
      unfold vscale. rewrite map_map. apply map_ext_in.
      intros k Hk. apply in_seq in Hk. rewrite Hcol by lia. ring. }
  destruct (Q _ Ev) as [H | [_ H]]; simpl in H; lra.
Qed.

(** * More on correlation and covariance matrices *)

Lemma dot_two_basis n i j a b y :
  length y = n -> (i < n)%nat -> (j < n)%nat ->
  dot (map (fun k => (a * delta k i + b * delta k j)%R) (seq 0 n)) y =
  (a * nth i y 0 + b * nth j y 0)%R.
Proof.
  intros Hy Hi Hj.
  rewrite (map_plus_seq (fun k => (a * delta k i)%R) (fun k => (b * delta k j)%R)).
  rewrite dot_vadd_l by now rewrite !length_map.
  rewrite !(dot_comm _ y). rewrite <- Hy.
  rewrite (dot_delta y (fun _ => a) i 0), (dot_delta y (fun _ => b) j 0).
  simpl.
  replace (i <? length y)%nat with true by (symmetry; apply Nat.ltb_lt; lia).
  replace (j <? length y)%nat with true by (symmetry; apply Nat.ltb_lt; lia).
  rewrite !Nat.sub_0_r. ring.
Qed.

Lemma nth_mv A x i :
  (i < length A)%nat -> nth i (mv A x) 0%R = dot (nth i A []) x.
Proof.
  intros Hi. unfold mv.
  rewrite (nth_indep _ 0%R (dot [] x)) by now rewrite length_map.
  apply (map_nth (fun r => dot r x)).
Qed.

Lemma quadratic_form_two n A i j a b :
  square n A -> (i < n)%nat -> (j < n)%nat ->
  let x := map (fun k => (a * delta k i + b * delta k j)%R) (seq 0 n) in
  dot x (mv A x) =
  (a * (a * entry A i i + b * entry A i j) +
   b * (a * entry A j i + b * entry A j j))%R.
Proof.
  intros [Hl Hr] Hi Hj x.
  unfold x at 1. rewrite dot_two_basis by (rewrite ?length_mv; lia).
  rewrite !nth_mv by lia.
  rewrite !(dot_comm _ x). unfold x.
  rewrite !dot_two_basis
    by (try apply (square_row n A); try split; assumption).
  reflexivity.
Qed.

Lemma two_basis_nonzero n i j a b :
  (i < n)%nat -> i <> j -> a <> 0%R ->
  nonzero (map (fun k => (a * delta k i + b * delta k j)%R) (seq 0 n)).
Proof.
  intros Hi Hij Ha. apply Exists_exists. exists a. split; [|exact Ha].
  apply in_map_iff. exists i. split; [|apply in_seq; lia].
  rewrite delta_diag. unfold delta.
  destruct (Nat.eqb_spec i j); [contradiction | ring].
Qed.

(** In a symmetric positive-definite matrix of unit diagonal every other
    entry lies strictly between -1 and 1. *)
Lemma unit_diagonal_bound n A i j :
  square n A -> symmetric A -> positive_definite n A ->
  entry A i i = 1%R -> entry A j j = 1%R ->
  (i < n)%nat -> (j < n)%nat -> i <> j ->
  (-1 < entry A i j < 1)%R.
Proof.
  intros Hsq Hs Hpd Hii Hjj Hi Hj Hij.
  pose proof (symmetric_entry n A j i Hsq Hs Hj Hi) as Hji.
  assert (P : forall b,
             (0 < 1 * (1 * entry A i i + b * entry A i j) +
                  b * (1 * entry A j i + b * entry A j j))%R).
  { intros b. rewrite <- (quadratic_form_two n A i j 1 b Hsq Hi Hj).
    apply Hpd; [now rewrite length_map, length_seq|].
    apply two_basis_nonzero; auto; lra. }
  pose proof (P 1%R) as P1. pose proof (P (-1)%R) as P2.
  rewrite Hii, Hjj, Hji in P1, P2. lra.
Qed.

Section MoreCorrelation.

Context {G : BitGenerator} {DS : DatasetLibrary G}.

(** The entries of the matrix [RandCorr] returns: each entry of the
    positive-definite matrix drawn, divided by the roots of the two
    diagonal entries of its row and of its column. *)
Theorem RandCorr_entries (matrixSize seed : Z) (w : World) :
  (0 <= matrixSize)%Z -> (0 <= seed < 2 ^ 32)%Z ->
  exists V C,
    fst (make_spd_matrix matrixSize seed w) = Return V /\
    fst (RandCorr matrixSize seed w) = Return C /\
    forall i j, (i < Z.to_nat matrixSize)%nat -> (j < Z.to_nat matrixSize)%nat ->
      entry (rows C) i j =
      (entry (rows V) i j /
       (sqrt (entry (rows V) i i) * sqrt (entry (rows V) j j)))%R.
Proof.
  intros Hn Hs.
  set (N := Z.to_nat matrixSize).
  set (V := spd N (init_genrand seed)).
  pose proof (spd_square N (init_genrand seed)) as Hsq. fold V in Hsq.
  pose proof (spd_positive N (init_genrand seed)) as Hpd. fold V in Hpd.
  exists (mkMat N V). eexists. split; [|split].
  - now rewrite make_spd_matrix_returns.
  - now apply RandCorr_value.
  - intros i j Hi Hj. simpl. fold N. fold V.
    rewrite scaled_entry
      by (try apply length_inverse_roots; try apply Hsq; assumption).
    rewrite !nth_inverse_roots by (apply Hsq || assumption).
    pose proof (positive_definite_diagonal N V i Hsq Hpd Hi) as Pi.
    pose proof (positive_definite_diagonal N V j Hsq Hpd Hj) as Pj.
    apply sqrt_lt_R0 in Pi, Pj. field. lra.
Qed.

(** Off the diagonal, the entries of the matrix [RandCorr] returns lie
    strictly between -1 and 1. *)
Theorem RandCorr_off_diagonal (matrixSize seed : Z) (w : World) :
  (0 <= matrixSize)%Z -> (0 <= seed < 2 ^ 32)%Z ->
  exists C,
    fst (RandCorr matrixSize seed w) = Return C /\
    forall i j, (i < Z.to_nat matrixSize)%nat -> (j < Z.to_nat matrixSize)%nat ->
      i <> j -> (-1 < entry (rows C) i j < 1)%R.
Proof.
  intros Hn Hs.
  set (N := Z.to_nat matrixSize).
  set (V := spd N (init_genrand seed)).
  set (s := inverse_roots (mkMat N V)).
  pose proof (spd_square N (init_genrand seed)) as Hsq. fold V in Hsq.
  pose proof (spd_symmetric N (init_genrand seed)) as Hsym. fold V in Hsym.
  pose proof (spd_positive N (init_genrand seed)) as Hpd. fold V in Hpd.
  assert (Hlen : length s = N) by (apply length_inverse_roots, Hsq).
  assert (Hnz : Forall (fun a => a <> 0%R) s)
    by now apply inverse_roots_nonzero.
  eexists. split; [now apply RandCorr_value|].
  fold N. fold V. fold s. simpl. intros i j Hi Hj Hij.
  pose proof (normalised_unit_diagonal N seed) as Hd.
  cbv zeta in Hd. fold V in Hd. fold s in Hd.
  rewrite np_diag2_square in Hd by now apply scaled_square.
  assert (Hone : forall k, (k < N)%nat ->
            entry (mmul (mmul (diag_rows s) N V) N (diag_rows s)) k k = 1%R).
  { intros k Hk.
    assert (E : nth k (map (fun i0 => entry (mmul (mmul (diag_rows s) N V) N
                                               (diag_rows s)) i0 i0)
                           (seq 0 N)) 0%R = 1%R)
      by (rewrite Hd; now apply nth_repeat_lt).
    now rewrite (nth_map_seq
                   (fun i0 => entry (mmul (mmul (diag_rows s) N V) N
                                          (diag_rows s)) i0 i0)) in E. }
  apply (unit_diagonal_bound N); auto.
  - now apply scaled_square.
  - now apply scaled_symmetric.
  - now apply scaled_positive_definite.
Qed.

(** The matrix [RandCov] returns is symmetric; [is_pos_def] says True of
    it when no standard deviation is zero and False as soon as one is. *)
Theorem RandCov_symmetric_positive_definite (std : list R) (seed : Z) (w : World) :
  (0 <= seed < 2 ^ 32)%Z ->
  exists V,
    fst (RandCov std seed w) = Return V /\
    symmetric (rows V) /\
    (Forall (fun a => a <> 0%R) std -> is_pos_def (Mat V) = Return true) /\
    (Exists (fun a => a = 0%R) std -> is_pos_def (Mat V) = Return false).
Proof.
  intros Hs.
  set (N := length std).
  set (V0 := spd N (init_genrand seed)).
  set (s := inverse_roots (mkMat N V0)).
  set (C := mmul (mmul (diag_rows s) N V0) N (diag_rows s)).
  pose proof (spd_square N (init_genrand seed)) as Hsq. fold V0 in Hsq.
  pose proof (spd_symmetric N (init_genrand seed)) as Hsym. fold V0 in Hsym.
  pose proof (spd_positive N (init_genrand seed)) as Hpd. fold V0 in Hpd.
  assert (Hlen : length s = N) by (apply length_inverse_roots, Hsq).
  assert (Hnz : Forall (fun a => a <> 0%R) s)
    by now apply inverse_roots_nonzero.
  assert (HCsq : square N C) by now apply scaled_square.
  assert (HCsym : symmetric C) by now apply scaled_symmetric.
  assert (HCpd : positive_definite N C) by now apply scaled_positive_definite.
  assert (HC : fst (RandCorr (Z.of_nat N) seed w) = Return (mkMat N C)).
  { rewrite RandCorr_value by (assumption || lia). now rewrite Nat2Z.id. }
  set (V := mmul (mmul (diag_rows std) N C) N (diag_rows std)).
  assert (HVsq : square N V) by now apply scaled_square.
  exists (mkMat N V). split; [|split; [|split]].
  - unfold RandCov, bind. fold N.
    destruct (RandCorr _ _ _) as [r w']. simpl in HC. subst r.
    unfold lift, np_matmul, np_dot, np_diag1, nrows. simpl. fold N.
    rewrite (proj1 HCsq), Nat.eqb_refl. simpl.
    replace (length (diag_rows std)) with N
      by (unfold diag_rows; now rewrite length_tabulate).
    now rewrite Nat.eqb_refl.
  - simpl. now apply scaled_symmetric.
  - intros Hstd.
    rewrite is_pos_def_square by (unfold nrows; simpl; apply HVsq).
    f_equal. apply all_eigenvalues_positive_spd; auto.
    + now apply scaled_symmetric.
    + now apply scaled_positive_definite.
  - intros Hzero. apply Exists_exists in Hzero as (a & Ha & ->).
    destruct (In_nth std 0%R 0%R Ha) as (i & Hi & Hnth). fold N in Hi.
    apply (is_pos_def_zero_column N V i HVsq Hi).
    intros k Hk. unfold V.
    rewrite scaled_entry by (assumption || reflexivity).
    rewrite Hnth. ring.
Qed.

End MoreCorrelation.

(** * Concrete runs of the further properties *)

Lemma transform_inverse_round_trip_witness :
  exists Y,
    inverse_transform_data two_samples (Mat quarter_turn) = Return Y /\
    transform_data Y (Mat quarter_turn) = Return two_samples.
Proof.
  apply transform_inverse_round_trip.
  - repeat constructor.
  - reflexivity.
  - exact quarter_turn_orthonormal.
Defined.

Definition two_samples_turned : matrix :=
  mkMat 2 (mmul (rows two_samples) 2 (rows quarter_turn)).

Lemma transform_data_preserves_dot_products_witness :
  dot (nth 0 (rows two_samples_turned) []) (nth 1 (rows two_samples_turned) []) =
  dot (nth 0 (rows two_samples) []) (nth 1 (rows two_samples) []).
Proof.
  apply (transform_data_preserves_dot_products
           two_samples quarter_turn two_samples_turned 0 1).
  - repeat constructor.
  - exact quarter_turn_orthonormal.
  - reflexivity.
Defined.

Lemma transform_data_composes_witness :
  transform_data two_samples
    (Mat (mkMat 2 (mmul (rows quarter_turn) 2 (rows quarter_turn)))) =
  Return (mkMat 2 (mmul (rows two_samples_turned) 2 (rows quarter_turn))).
Proof.
  apply (transform_data_composes two_samples quarter_turn quarter_turn
           two_samples_turned).
  - repeat constructor.
  - reflexivity.
  - reflexivity.
  - reflexivity.
Defined.

Lemma is_pos_def_by_eigenvectors_witness :
  (symmetric (identity 2) -> positive_definite 2 (identity 2) ->
   is_pos_def (Mat (mkMat 2 (identity 2))) = Return true) /\
  (forall x mu, length x = 2%nat -> nonzero x ->
                mv (identity 2) x = vscale mu x -> (mu <= 0)%R ->
   is_pos_def (Mat (mkMat 2 (identity 2))) = Return false).
Proof.
  apply is_pos_def_by_eigenvectors. apply identity_square.
Defined.

Lemma constructors_raise_in_libraries_witness :
  ensures (constructor (G := counter_generator) (T := accepting_library)
             V_MixNormal1 3 4 0)
          (fun _ => True).
Proof.
  apply constructors_raise_in_libraries. discriminate.
Defined.

Lemma parameters_shapes_and_ranges_witness :
  exists p,
    fst (draw_parameters (G := counter_generator) Shared 3 4 0 start) = Return p /\
    length (loc p) = Z.to_nat 3 /\
    Forall (fun r => length r = Z.to_nat 4) (loc p) /\
    Forall (Forall (fun x => (0 <= x < 10)%R)) (loc p) /\
    length (scale p) = Z.to_nat 3 /\
    Forall (fun r => length r = Z.to_nat 4) (scale p) /\
    exists v, probs p = Vec v /\ length v = Z.to_nat 3 /\
              Forall in_unit_interval v.
Proof.
  eexists. split; [reflexivity|].
  apply (parameters_shapes_and_ranges (G := counter_generator) Shared 3 4 0 start).
  reflexivity.
Defined.

Lemma loc_and_scale_shared_by_all_constructors_witness :
  exists p p',
    fst (draw_parameters (G := counter_generator)
           (weights_of V_MixNormal1) 3 4 0 start) = Return p /\
    fst (draw_parameters (G := counter_generator)
           (weights_of V_MixMultiNormal2) 3 4 0 start) = Return p' /\
    loc p = loc p' /\ scale p = scale p'.
Proof.
  eexists. eexists. split; [reflexivity|]. split; [reflexivity|].
  apply (loc_and_scale_shared_by_all_constructors (G := counter_generator)
           V_MixNormal1 V_MixMultiNormal2 3 4 0 start start); reflexivity.
Defined.

Lemma MixtureGaussian_components_witness :
  exists p,
    fst (draw_parameters (G := counter_generator) Shared 3 4 0 start) = Return p /\
    fst (MixtureGaussian (G := counter_generator) (T := accepting_library)
           3 4 0 start) =
    Return (Mixture (Categorical (probs p))
              (map (fun i => MultivariateNormalDiag
                               (Vec (nth i (loc p) []))
                               (Vec (nth i (scale p) [])))
                   (range 3))
              true).
Proof.
  destruct (MixtureGaussian_components (G := counter_generator)
              (T := accepting_library) 3 4 0 start _ eq_refl)
    as (p & Hp & Hd).
  exists p. split; [exact Hp|]. rewrite <- Hd. reflexivity.
Defined.

Lemma MixNormal1_components_witness :
  exists p,
    fst (draw_parameters (G := counter_generator) PerDimension 2 2 0 start) =
    Return p /\
    fst (MixNormal1_indep (G := counter_generator) (T := accepting_library)
           2 2 0 start) =
    Return (Independent
              (Mixture (Categorical (probs p))
                 (map (fun i => Normal (Vec (nth i (loc p) []))
                                       (Vec (nth i (scale p) [])))
                      (range 2))
                 true) 0).
Proof.
  destruct (MixNormal1_components (G := counter_generator)
              (T := accepting_library) 2 2 0 start _ eq_refl)
    as (p & Hp & Hd & Hi).
  exists p. split; [exact Hp|]. rewrite <- Hd. exact Hi.
Defined.

Lemma constructors_leave_seeds_set_witness :
  PYTHONHASHSEED (snd (constructor (G := counter_generator)
                         (T := accepting_library) V_MixNormal1 3 4 7 start)) =
    Some (str 7) /\
  tf_global_seed (snd (constructor (G := counter_generator)
                         (T := accepting_library) V_MixNormal1 3 4 7 start)) =
    Some 7%Z /\
  py_random (snd (constructor (G := counter_generator)
                    (T := accepting_library) V_MixNormal1 3 4 7 start)) =
    Some 7%Z.
Proof.
  apply constructors_leave_seeds_set. lia.
Defined.

Lemma RandCorr_entries_witness :
  exists V C,
    fst (make_spd_matrix (DS := identity_dataset) 2 1 start) = Return V /\
    fst (RandCorr (DS := identity_dataset) 2 1 start) = Return C /\
    forall i j, (i < Z.to_nat 2)%nat -> (j < Z.to_nat 2)%nat ->
      entry (rows C) i j =
      (entry (rows V) i j /
       (sqrt (entry (rows V) i i) * sqrt (entry (rows V) j j)))%R.
Proof.
  apply RandCorr_entries; lia.
Defined.

Lemma RandCorr_off_diagonal_witness :
  exists C,
    fst (RandCorr (DS := identity_dataset) 2 1 start) = Return C /\
    forall i j, (i < Z.to_nat 2)%nat -> (j < Z.to_nat 2)%nat ->
      i <> j -> (-1 < entry (rows C) i j < 1)%R.
Proof.
  apply RandCorr_off_diagonal; lia.
Defined.

Lemma RandCov_symmetric_positive_definite_witness :
  exists V,
    fst (RandCov (DS := identity_dataset) [2; 3]%R 1 start) = Return V /\
    symmetric (rows V) /\
    (Forall (fun a => a <> 0%R) [2; 3]%R -> is_pos_def (Mat V) = Return true) /\
    (Exists (fun a => a = 0%R) [2; 3]%R -> is_pos_def (Mat V) = Return false).
Proof.
  apply RandCov_symmetric_positive_definite. lia.
Defined.
